(** * Filter bar widgets, INP breakdown overlays and the polling helper

    A shallow embedding of the DevTools front-end pieces found in
    [ui/legacy/FilterBar.ts], [panels/timeline/components/insights/INPBreakdown.ts]
    and the end-to-end [DevToolsPage] helper, together with the properties
    that the specification states about them.

    JavaScript objects that are mutated in place are modelled by explicit
    state passing; [Set<string>] is a [gset string], [Record<string, boolean>]
    a [gmap string bool], arrays are lists.  Every call of
    [dispatchEventToListeners] is recorded in a log carried by the object. *)

From Stdlib Require Import ZArith List Bool Lia.
From Stdlib Require QArith_base.
From stdpp Require Import base option list gmap sets strings.

Set Warnings "-clear-no-such-hyp".

Local Open Scope string_scope.
Local Open Scope list_scope.

(** ** JavaScript values used as conditions *)

(** A string is truthy exactly when it is not empty. *)
Definition truthy_string (s : string) : bool :=
  match s with
  | EmptyString => false
  | String _ _ => true
  end.

(** [Boolean(x)] for an optional boolean argument: [undefined] is falsy. *)
Definition Boolean_of (x : option bool) : bool :=
  match x with
  | Some b => b
  | None => false
  end.

(** The members every JavaScript object inherits from [Object.prototype]:
    the functions of the language standard, and the accessor [__proto__]
    whose value is the prototype itself.  Read through a key, each of them
    is a function or an object, hence truthy. *)
Definition inherited_keys : list string :=
  [ "constructor"; "hasOwnProperty"; "isPrototypeOf"; "propertyIsEnumerable";
    "toLocaleString"; "toString"; "valueOf";
    "__defineGetter__"; "__defineSetter__"; "__lookupGetter__"; "__lookupSetter__";
    "__proto__" ].

Definition inherited_key (key : string) : bool :=
  bool_decide (key ∈ inherited_keys).

(** [record[key]] used as a condition on a [Record<string, boolean>].  The
    map holds the own keys of the record.  An own key reads its value; a
    key the record does not own is looked up in [Object.prototype], where a
    member of [inherited_keys] is found and is truthy, and any other key
    reads [undefined], which is falsy. *)
Definition record_truthy (r : gmap string bool) (key : string) : bool :=
  match r !! key with
  | Some b => b
  | None => inherited_key key
  end.

(** ** Events of the filter widgets *)

Inductive FilterUIEvents := FILTER_CHANGED.
Inductive FilterBarEvents := CHANGED.

(** The interface every filter primitive implements. *)
Class FilterUI (A : Type) := { isActive : A → bool }.

(** ** NamedBitSetFilterUI *)

Module NamedBitSetFilterUI.

Definition ALL_TYPES : string := "all".

Record Item := {
  name : string;
  label : string;
  title : option string;
  jslogContext : string
}.

(** One [span] created by [addBit].  [typeName] is the entry that
    [typeFilterElementTypeNames] holds for the element, [selected] the
    presence of the CSS class [selected] (and of [aria-selected]). *)
Record TypeFilterElement := {
  typeName : string;
  selected : bool;
  tabIndex : Z
}.

(** The filter object.  [setting] is the value currently stored in the
    [Setting<Record<string, boolean>>] the filter was built with, if any;
    [dispatched] logs the events handed to [dispatchEventToListeners]. *)
Record t := {
  typeFilterElements : list TypeFilterElement;
  allowedTypes : gset string;
  setting : option (gmap string bool);
  dispatched : list FilterUIEvents
}.

Definition with_allowedTypes (a : gset string) (s : t) : t :=
  {| typeFilterElements := typeFilterElements s;
     allowedTypes := a;
     setting := setting s;
     dispatched := dispatched s |}.

Definition with_setting (v : option (gmap string bool)) (s : t) : t :=
  {| typeFilterElements := typeFilterElements s;
     allowedTypes := allowedTypes s;
     setting := v;
     dispatched := dispatched s |}.

Definition dispatchEventToListeners (e : FilterUIEvents) (s : t) : t :=
  {| typeFilterElements := typeFilterElements s;
     allowedTypes := allowedTypes s;
     setting := setting s;
     dispatched := dispatched s ++ [e] |}.

Definition set_selected (active : bool) (el : TypeFilterElement) : TypeFilterElement :=
  {| typeName := typeName el; selected := active; tabIndex := tabIndex el |}.

Definition set_tabIndex (i : Z) (el : TypeFilterElement) : TypeFilterElement :=
  {| typeName := typeName el; selected := selected el; tabIndex := i |}.

Definition isActive (s : t) : bool :=
  negb (bool_decide (ALL_TYPES ∈ allowedTypes s)).

Definition accept (typeName : string) (s : t) : bool :=
  bool_decide (ALL_TYPES ∈ allowedTypes s) || bool_decide (typeName ∈ allowedTypes s).

(** [update]: normalise the set, repaint every bit, fire one event. *)
Definition update (s : t) : t :=
  let allowed :=
    if bool_decide (size (allowedTypes s) = 0)
       || bool_decide (ALL_TYPES ∈ allowedTypes s)
    then ∅ ∪ {[ALL_TYPES]}
    else allowedTypes s in
  let repaint (element : TypeFilterElement) :=
    let typeName := typeName element in
    let active :=
      bool_decide ((if truthy_string typeName then typeName else "") ∈ allowed) in
    set_selected active element in
  dispatchEventToListeners FILTER_CHANGED
    {| typeFilterElements := map repaint (typeFilterElements s);
       allowedTypes := allowed;
       setting := setting s;
       dispatched := dispatched s |}.

(** The set that [settingChanged] rebuilds from the stored record. *)
Definition allowedTypesFrom (allowedTypesFromSetting : gmap string bool)
    (elements : list TypeFilterElement) : gset string :=
  foldl (λ acc element,
           let typeName := typeName element in
           if truthy_string typeName && record_truthy allowedTypesFromSetting typeName
           then acc ∪ {[typeName]}
           else acc)
        ∅ elements.

(** [settingChanged] reads the setting; without a setting the read
    throws, which is the [None] result. *)
Definition settingChanged (s : t) : option t :=
  match setting s with
  | None => None
  | Some allowedTypesFromSetting =>
      Some (update (with_allowedTypes
                      (allowedTypesFrom allowedTypesFromSetting (typeFilterElements s)) s))
  end.

(** Modelled from the spec: [Common.Settings.Setting] is not among the
    sources.  It is the settings store of the external interfaces, "get/set
    ... keyed-boolean values with change notification": [set] stores the
    value and then notifies the change listeners, and the only listener
    this object registers is [settingChanged]. *)
Definition Setting_set (value : gmap string bool) (s : t) : option t :=
  settingChanged (with_setting (Some value) s).

Definition addBit (name : string) (s : t) : t :=
  {| typeFilterElements :=
       typeFilterElements s ++ [{| typeName := name; selected := false; tabIndex := -1 |}];
     allowedTypes := allowedTypes s;
     setting := setting s;
     dispatched := dispatched s |}.

(** The record [toggleTypeFilter] builds from the allowed types: an object
    literal [{}] with [updatedSetting[type] = true] for every type of the
    set.  The assignment creates an own key, except for the key [__proto__]:
    there it calls the setter inherited from [Object.prototype], which
    ignores a boolean and leaves the record without such a key. *)
Definition updatedSetting (allowedTypes : gset string) : gmap string bool :=
  gset_to_gmap true (allowedTypes ∖ {["__proto__"]}).

Definition toggleTypeFilter (typeName : string) (allowMultiSelect : bool) (s : t) : option t :=
  let a1 :=
    if allowMultiSelect && negb (bool_decide (typeName = ALL_TYPES))
    then allowedTypes s ∖ {[ALL_TYPES]}
    else ∅ in
  let a2 :=
    if bool_decide (typeName ∈ a1) then a1 ∖ {[typeName]} else a1 ∪ {[typeName]} in
  let a3 :=
    if bool_decide (size a2 = 0) then a2 ∪ {[ALL_TYPES]} else a2 in
  let s' := with_allowedTypes a3 s in
  match setting s' with
  | Some _ =>
      let updatedSetting : gmap string bool := updatedSetting a3 in
      Setting_set updatedSetting s'
  | None => Some (update s')
  end.

Definition reset (s : t) : option t :=
  toggleTypeFilter ALL_TYPES false s.

(** The constructor: the "all" bit first, then one bit per item, then
    either the stored selection or "all". *)
Definition new (items : list Item) (setting : option (gmap string bool)) : option t :=
  let s0 := {| typeFilterElements := []; allowedTypes := ∅;
               setting := None; dispatched := [] |} in
  let s1 := addBit ALL_TYPES s0 in
  let s2 := {| typeFilterElements := alter (set_tabIndex 0) 0%nat (typeFilterElements s1);
               allowedTypes := allowedTypes s1;
               setting := NamedBitSetFilterUI.setting s1;
               dispatched := dispatched s1 |} in
  let s3 := foldl (λ s item, addBit (name item) s) s2 items in
  match setting with
  | Some value => settingChanged (with_setting (Some value) s3)
  | None => toggleTypeFilter ALL_TYPES false s3
  end.

(** A click or key event as far as [onTypeFilterClicked] looks at it.
    [target] is the position in [typeFilterElements] of the element the
    event was delivered to. *)
Record KeyboardEvent := {
  metaKey : bool;
  ctrlKey : bool;
  altKey : bool;
  shiftKey : bool;
  target : option nat
}.

(** [isMac] stands for [Host.Platform.isMac()].  The handler is attached
    to the elements of [typeFilterElements] only, so a target outside of
    them has no type name to look up: that is the [None] result. *)
Definition onTypeFilterClicked (isMac : bool) (e : KeyboardEvent) (s : t) : option t :=
  let toggle :=
    if isMac
    then metaKey e && negb (ctrlKey e) && negb (altKey e) && negb (shiftKey e)
    else ctrlKey e && negb (metaKey e) && negb (altKey e) && negb (shiftKey e) in
  match target e with
  | Some element =>
      match typeFilterElements s !! element with
      | Some el => toggleTypeFilter (typeName el) toggle s
      | None => None
      end
  | None => Some s
  end.

(** Selection state of the bit at a position. *)
Definition bitSelected (i : nat) (s : t) : option bool :=
  selected <$> typeFilterElements s !! i.

End NamedBitSetFilterUI.

(** ** TextFilterUI *)

Module TextFilterUI.

(** How a promise handed back to the caller settles. *)
Inductive Promise (A : Type) :=
| Resolved (value : A)
| Rejected (reason : string).
Arguments Resolved {A} value.
Arguments Rejected {A} reason.

Section WithSuggestions.
(** The entries of [Suggestions] (declared in [SuggestBox.js]). *)
Context {Suggestion : Type}.

Definition Suggestions := list Suggestion.

Definition SuggestionProvider :=
  string → string → option bool → Promise Suggestions.

(** [value] is what [#filter.valueWithoutSuggestion()] returns. *)
Record t := {
  value : string;
  suggestionProvider : option SuggestionProvider;
  dispatched : list FilterUIEvents
}.

Definition new : t :=
  {| value := ""; suggestionProvider := None; dispatched := [] |}.

Definition completions (expression prefix : string) (force : option bool) (s : t)
    : Promise Suggestions :=
  match suggestionProvider s with
  | Some provider => provider expression prefix force
  | None => Resolved []
  end.

Definition isActive (s : t) : bool := truthy_string (value s).

Definition valueChanged (s : t) : t :=
  {| value := value s;
     suggestionProvider := suggestionProvider s;
     dispatched := dispatched s ++ [FILTER_CHANGED] |}.

Definition setValue (v : string) (s : t) : t :=
  valueChanged {| value := v;
                  suggestionProvider := suggestionProvider s;
                  dispatched := dispatched s |}.

Definition setSuggestionProvider (provider : SuggestionProvider) (s : t) : t :=
  {| value := value s;
     suggestionProvider := Some provider;
     dispatched := dispatched s |}.

Definition clear (s : t) : t := setValue "" s.
End WithSuggestions.

Arguments t : clear implicits.
Arguments SuggestionProvider : clear implicits.

End TextFilterUI.

(** ** CheckboxFilterUI *)

Module CheckboxFilterUI.

(** [checkbox_checked] is [this.checkbox.checked]. *)
Record t := {
  activeWhenChecked : bool;
  checkbox_checked : bool;
  dispatched : list FilterUIEvents
}.

(** Modelled from the spec: [bindCheckbox] ([SettingsUI.js]) is not among
    the sources; with a boolean setting of the settings store the checkbox
    shows the stored value. *)
Definition bindCheckbox (setting : bool) : bool := setting.

Definition new (title : string) (activeWhenChecked : option bool)
    (setting : option bool) (jslogContext : option string) : t :=
  {| activeWhenChecked := Boolean_of activeWhenChecked;
     checkbox_checked :=
       match setting with
       | Some stored => bindCheckbox stored
       | None => true
       end;
     dispatched := [] |}.

Definition isActive (s : t) : bool :=
  eqb (activeWhenChecked s) (checkbox_checked s).

Definition checked (s : t) : bool := checkbox_checked s.

Definition setChecked (checked : bool) (s : t) : t :=
  {| activeWhenChecked := activeWhenChecked s;
     checkbox_checked := checked;
     dispatched := dispatched s |}.

Definition fireUpdated (s : t) : t :=
  {| activeWhenChecked := activeWhenChecked s;
     checkbox_checked := checkbox_checked s;
     dispatched := dispatched s ++ [FILTER_CHANGED] |}.

End CheckboxFilterUI.

#[export] Instance NamedBitSetFilterUI_FilterUI : FilterUI NamedBitSetFilterUI.t :=
  {| isActive := NamedBitSetFilterUI.isActive |}.

#[export] Instance TextFilterUI_FilterUI {Suggestion : Type}
    : FilterUI (TextFilterUI.t Suggestion) :=
  {| isActive := TextFilterUI.isActive |}.

#[export] Instance CheckboxFilterUI_FilterUI : FilterUI CheckboxFilterUI.t :=
  {| isActive := CheckboxFilterUI.isActive |}.

(** ** FilterBar *)

Module FilterBar.

Section WithFilters.
(** The filter objects live outside of the bar; the bar keeps
    references to them.  [Store] gives, for every reference, the object
    it currently denotes, so a filter that changes after it was added
    is seen changed by the bar. *)
Context {Filter : Type} `{FilterUI Filter}.

Definition Store := nat → Filter.

(** [filterButtonChecked] is the checked state of [filterButtonInternal];
    [registered] holds one entry per call of
    [filter.addEventListener(FILTER_CHANGED, this.filterChanged, this)]. *)
Record t := {
  enabled : bool;
  stateSetting : bool;
  filterButtonChecked : bool;
  filterButtonEnabled : bool;
  filters : list nat;
  registered : list nat;
  dispatched : list FilterBarEvents
}.

Definition new (name : string) (visibleByDefault : option bool) : t :=
  {| enabled := true;
     stateSetting := Boolean_of visibleByDefault;
     filterButtonChecked := false;
     filterButtonEnabled := true;
     filters := [];
     registered := [];
     dispatched := [] |}.

Fixpoint hasActiveFilterIn (σ : Store) (filters : list nat) : bool :=
  match filters with
  | [] => false
  | filter :: rest =>
      if isActive (σ filter) then true else hasActiveFilterIn σ rest
  end.

Definition hasActiveFilter (σ : Store) (b : t) : bool :=
  hasActiveFilterIn σ (filters b).

Definition updateFilterButton (σ : Store) (b : t) : t :=
  let isActive := hasActiveFilter σ b in
  {| enabled := enabled b;
     stateSetting := stateSetting b;
     filterButtonChecked := isActive;
     filterButtonEnabled := filterButtonEnabled b;
     filters := filters b;
     registered := registered b;
     dispatched := dispatched b |}.

Definition dispatchEventToListeners (e : FilterBarEvents) (b : t) : t :=
  {| enabled := enabled b;
     stateSetting := stateSetting b;
     filterButtonChecked := filterButtonChecked b;
     filterButtonEnabled := filterButtonEnabled b;
     filters := filters b;
     registered := registered b;
     dispatched := dispatched b ++ [e] |}.

Definition addFilter (σ : Store) (filter : nat) (b : t) : t :=
  updateFilterButton σ
    {| enabled := enabled b;
       stateSetting := stateSetting b;
       filterButtonChecked := filterButtonChecked b;
       filterButtonEnabled := filterButtonEnabled b;
       filters := filters b ++ [filter];
       registered := registered b ++ [filter];
       dispatched := dispatched b |}.

Definition setEnabled (enabled : bool) (b : t) : t :=
  {| enabled := enabled;
     stateSetting := stateSetting b;
     filterButtonChecked := filterButtonChecked b;
     filterButtonEnabled := enabled;
     filters := filters b;
     registered := registered b;
     dispatched := dispatched b |}.

Definition filterChanged (σ : Store) (b : t) : t :=
  dispatchEventToListeners CHANGED (updateFilterButton σ b).

Definition clear (σ : Store) (b : t) : t :=
  updateFilterButton σ
    {| enabled := enabled b;
       stateSetting := stateSetting b;
       filterButtonChecked := filterButtonChecked b;
       filterButtonEnabled := filterButtonEnabled b;
       filters := [];
       registered := registered b;
       dispatched := dispatched b |}.

(** [alwaysShowFilters] is never assigned, so it reads [undefined]. *)
Definition visible (b : t) : bool :=
  false || (stateSetting b && enabled b).

(** Modelled from the spec: the event target ([Common.ObjectWrapper]) is
    not among the sources.  A filter that fires its "filter changed"
    event, "consumed by parent UI containers", calls the listeners
    registered on it, one call per registration. *)
Definition fire_FILTER_CHANGED (filter : nat) (σ : Store) (b : t) : t :=
  foldl (λ b listener, if decide (listener = filter) then filterChanged σ b else b)
        b (registered b).

Definition registrations (filter : nat) (b : t) : nat :=
  length (List.filter (λ listener, bool_decide (listener = filter)) (registered b)).
End WithFilters.

Arguments t : clear implicits.

End FilterBar.

(** ** INPBreakdown *)

Module INPBreakdown.

(** The localisable strings the component asks for. *)
Inductive UIString :=
| inputDelayLabel
| processingDurationLabel
| presentationDelayLabel
| noInteractions
| subpart
| duration.

Inductive OverlayType := TIMESPAN_BREAKDOWN.
Inductive RenderLocation := BELOW_EVENT.

Section Component.
(** [Micro] is the type of microsecond values and [add] the [+] of the
    source on them; nothing is assumed about either, so what is proved
    holds for whatever arithmetic the numbers follow. *)
Context {Micro : Type} (add : Micro → Micro → Micro).

(** The fields of an event besides its timings, and the fields of the
    insight model besides the event. *)
Context {EventFields ModelFields : Type}.

Record SyntheticInteractionPair := {
  ts : Micro;
  inputDelay : Micro;
  mainThreadHandling : Micro;
  presentationDelay : Micro;
  eventFields : EventFields
}.

Record INPBreakdownInsightModel := {
  longestInteractionEvent : option SyntheticInteractionPair;
  modelFields : ModelFields
}.

(** [Trace.Helpers.Timing.traceWindowFromMicroSeconds] and the windows it
    returns are declared outside of the sources at hand: they are taken
    as parameters. *)
Context {TraceWindowMicro : Type}.
Variable window_min window_max : TraceWindowMicro → Micro.
Variable traceWindowFromMicroSeconds : Micro → Micro → TraceWindowMicro.

(** [i18nString] and the formatting of a duration, likewise. *)
Variable i18nString : UIString → string.
Variable time : Micro → string.

Record EntryBreakdown := {
  bounds : TraceWindowMicro;
  label : string;
  showDuration : bool
}.

(** An element of [sections] is [None] where the source has stored
    [undefined] (an index without an element). *)
Record TimelineOverlay := {
  type : OverlayType;
  sections : list (option EntryBreakdown);
  renderLocation : RenderLocation;
  entry : SyntheticInteractionPair
}.

(** [array[index]] for a number that is used as an index. *)
Definition at_index {A : Type} (l : list A) (index : Z) : option A :=
  if (index <? 0)%Z then None else l !! Z.to_nat index.

Definition createOverlaysForSbupart (event : SyntheticInteractionPair) (subpartIndex : Z)
    : list TimelineOverlay :=
  let p1 := traceWindowFromMicroSeconds (ts event) (add (ts event) (inputDelay event)) in
  let p2 := traceWindowFromMicroSeconds
              (window_max p1) (add (window_max p1) (mainThreadHandling event)) in
  let p3 := traceWindowFromMicroSeconds
              (window_max p2) (add (window_max p2) (presentationDelay event)) in
  let sections :=
    [ Some {| bounds := p1; label := i18nString inputDelayLabel; showDuration := true |};
      Some {| bounds := p2; label := i18nString processingDurationLabel; showDuration := true |};
      Some {| bounds := p3; label := i18nString presentationDelayLabel; showDuration := true |} ] in
  let sections :=
    if negb (subpartIndex =? -1)%Z
    then [mjoin (at_index sections subpartIndex)]
    else sections in
  [ {| type := TIMESPAN_BREAKDOWN;
       sections := sections;
       renderLocation := BELOW_EVENT;
       entry := event |} ].

(** The component, as far as these methods look at it. *)
Record t := { model : option INPBreakdownInsightModel }.

(** Methods run against the component and hand it back: a computation
    returns its result together with the component as it is left. *)
Definition Method (A : Type) : Type := t → A * t.

Definition ret {A : Type} (a : A) : Method A := λ this, (a, this).

Definition bind {A B : Type} (m : Method A) (k : A → Method B) : Method B :=
  λ this, let '(a, this') := m this in k a this'.

Definition this_model : Method (option INPBreakdownInsightModel) :=
  λ this, (model this, this).

Notation "'let*' x ':=' m 'in' k" := (bind m (λ x, k))
  (at level 10, x name, m at level 100, k at level 200, only parsing).

Definition hasAskAiSupport : Method bool :=
  let* model := this_model in
  ret (match model with
       | Some m => bool_decide (is_Some (longestInteractionEvent m))
       | None => false
       end).

Definition createOverlays : Method (list TimelineOverlay) :=
  let* model := this_model in
  match model with
  | None => ret []
  | Some model =>
      let event := longestInteractionEvent model in
      match event with
      | None => ret []
      | Some event => ret (createOverlaysForSbupart event (-1))
      end
  end.

Record TableRow := {
  values : list string;
  overlays : list TimelineOverlay
}.

(** What the template of [renderContent] is instantiated with. *)
Inductive LitTemplate :=
| InsightSectionText (text : string)
| InsightSectionTable (headers : list string) (rows : list TableRow).

Definition renderContent : Method LitTemplate :=
  let* model := this_model in
  let event := model ≫= longestInteractionEvent in
  match event with
  | None => ret (InsightSectionText (i18nString noInteractions))
  | Some event =>
      ret (InsightSectionTable
             [i18nString subpart; i18nString duration]
             [ {| values := [i18nString inputDelayLabel; time (inputDelay event)];
                  overlays := createOverlaysForSbupart event 0 |};
               {| values := [i18nString processingDurationLabel;
                             time (mainThreadHandling event)];
                  overlays := createOverlaysForSbupart event 1 |};
               {| values := [i18nString presentationDelayLabel;
                             time (presentationDelay event)];
                  overlays := createOverlaysForSbupart event 2 |} ])
  end.
End Component.

End INPBreakdown.

(** ** DevToolsPage: polling with an attempt cap *)

Module DevToolsPage.

(** A JavaScript number as far as a cap is one.  Every finite double is
    a rational number; the fraction [Qnum q / Qden q] stands for its
    value. *)
Inductive Number :=
| Finite (q : QArith_base.Q)
| NaN
| Infinity
| NegativeInfinity.

Definition integer (n : Z) : Number := Finite (QArith_base.inject_Z n).

Definition MAX_SAFE_INTEGER : Z := 9007199254740991.

(** 2^53: from here on not every integer is a double. *)
Definition two_to_53 : Z := 9007199254740992.

Record Options := { tries : Number }.

(** The counter of the loop is a double that starts at 0 and is only ever
    incremented: it holds an integer between 0 and 2^53.  Below 2^53 the
    increment is exact.  At 2^53 the sum 2^53 + 1 is no double and is
    rounded to the nearest one, ties to even, which is 2^53 again: the
    counter stays where it is. *)
Definition increment (tries : Z) : Z :=
  if (tries <? two_to_53)%Z then (tries + 1)%Z else tries.

(** [tries < cap] for the counter and a number: the comparison of the
    values, exact for doubles, and false when the cap is NaN. *)
Definition less_than (tries : Z) (cap : Number) : bool :=
  match cap with
  | Finite q => (tries * Z.pos (QArith_base.Qden q) <? QArith_base.Qnum q)%Z
  | NaN => false
  | Infinity => true
  | NegativeInfinity => false
  end.

(** How an awaited call ends. *)
Inductive Completion (A : Type) :=
| Returned (value : A)
| Thrown (reason : string).
Arguments Returned {A} value.
Arguments Thrown {A} reason.

(** What the page object does that can be observed from outside. *)
Inductive Effect :=
| FnCalled
| TimeoutMs (ms : Z).

Record World := {
  fnCalls : nat;
  log : list Effect
}.

Definition start : World := {| fnCalls := 0; log := [] |}.

Section Polling.
(** [truthy] is the truthiness of the values of [T]; [undefined] is
    [None] and falsy.  [fn k] is the way the call number [k] (counted
    from 0) of the polled function settles. *)
Context {T : Type} (truthy : T → bool).
Variable fn : nat → Completion (option T).

Definition is_truthy (result : option T) : bool :=
  match result with
  | Some v => truthy v
  | None => false
  end.

Definition await_fn (w : World) : Completion (option T) * World :=
  (fn (fnCalls w), {| fnCalls := S (fnCalls w); log := log w ++ [FnCalled] |}).

Definition timeout (ms : Z) (w : World) : World :=
  {| fnCalls := fnCalls w; log := log w ++ [TimeoutMs ms] |}.

(** The [while] loop; [tries] is the counter before the test
    [tries++ < options.tries].  [None] means that [fuel] iterations
    did not suffice. *)
Fixpoint poll (fuel : nat) (options : Options) (tries : Z) (w : World)
    : option (Completion (option T) * World) :=
  match fuel with
  | O => None
  | S fuel =>
      if less_than tries (DevToolsPage.tries options) then
        let tries := increment tries in
        match await_fn w with
        | (Thrown reason, w) => Some (Thrown reason, w)
        | (Returned result, w) =>
            if is_truthy result then Some (Returned result, w)
            else poll fuel options tries (timeout 100 w)
        end
      else Some (Returned None, w)
  end.

(** Modelled from the spec: [AsyncScope] is not among the sources; [exec]
    runs the callback it is given and hands its result on, as befits
    "cooperative asynchronous polling ... strictly sequential per test". *)
Definition asyncScope_exec {A : Type} (callback : World → A) (w : World) : A :=
  callback w.

Definition waitForFunctionWithTries (fuel : nat) (options : option Options) (w : World)
    : option (Completion (option T) * World) :=
  let options :=
    match options with
    | Some options => options
    | None => {| tries := integer MAX_SAFE_INTEGER |}
    end in
  asyncScope_exec (λ w, let tries := 0%Z in poll fuel options tries w) w.
End Polling.

(** [waitForWithTries] polls the element query: [query k] is what the
    query number [k] finds, [None] for no element. *)
Definition waitForWithTries {ElementHandle : Type} (query : nat → option ElementHandle)
    (fuel : nat) (options : option Options) (w : World)
    : option (Completion (option ElementHandle) * World) :=
  waitForFunctionWithTries (λ _, true) (λ k, Returned (query k)) fuel options w.

End DevToolsPage.

(** * Operations, reachable states and examples *)

(** ** Operations and reachable states of a named bit-set filter *)

Module NamedBitSetFilterUI_run.
Import NamedBitSetFilterUI.

(** What can happen to a filter once it is built: its own operations, a
    click on one of its bits, and a change of its setting by anyone who
    shares the setting. *)
Inductive Operation :=
| ToggleTypeFilter (typeName : string) (allowMultiSelect : bool)
| Reset
| SettingChanged
| SettingSet (value : gmap string bool)
| TypeFilterClicked (isMac : bool) (e : KeyboardEvent).

Definition run (op : Operation) (s : t) : option t :=
  match op with
  | ToggleTypeFilter typeName allowMultiSelect => toggleTypeFilter typeName allowMultiSelect s
  | Reset => reset s
  | SettingChanged => settingChanged s
  | SettingSet value =>
      match setting s with
      | Some _ => Setting_set value s
      | None => None
      end
  | TypeFilterClicked isMac e => onTypeFilterClicked isMac e s
  end.

Inductive reachable : t → Prop :=
| reachable_new items setting s :
    new items setting = Some s → reachable s
| reachable_run op s s' :
    reachable s → run op s = Some s' → reachable s'.

(** The type names of the bits, in the order of the elements. *)
Definition typeNames (s : t) : list string := typeName <$> typeFilterElements s.

(** The set [update] leaves in [allowedTypes]. *)
Definition normalised (a : gset string) : gset string :=
  if bool_decide (size a = 0) || bool_decide (ALL_TYPES ∈ a) then {[ALL_TYPES]} else a.

(** The set [toggleTypeFilter] computes before it stores or repaints. *)
Definition toggled (typeName : string) (allowMultiSelect : bool) (a : gset string)
    : gset string :=
  let a1 :=
    if allowMultiSelect && negb (bool_decide (typeName = ALL_TYPES))
    then a ∖ {[ALL_TYPES]} else ∅ in
  let a2 :=
    if bool_decide (typeName ∈ a1) then a1 ∖ {[typeName]} else a1 ∪ {[typeName]} in
  if bool_decide (size a2 = 0) then a2 ∪ {[ALL_TYPES]} else a2.
(** Whether a click counts as one with the multi-select modifier: the
    value [onTypeFilterClicked] computes for [toggle]. *)
Definition multiSelectModifier (isMac : bool) (e : KeyboardEvent) : bool :=
  if isMac
  then metaKey e && negb (ctrlKey e) && negb (altKey e) && negb (shiftKey e)
  else ctrlKey e && negb (metaKey e) && negb (altKey e) && negb (shiftKey e).

(** What holds of every state a filter can be in. *)
Definition painted (s : t) : Prop :=
  ∀ el, el ∈ typeFilterElements s →
        selected el = bool_decide (typeName el ∈ allowedTypes s).

Definition registered_names (s : t) : Prop :=
  is_Some (setting s) →
  ∀ k : string, k ∈ allowedTypes s → k ≠ "" ∧ k ∈ typeNames s.

(** No bit of the filter is named like a member every object inherits. *)
Definition plain_names (s : t) : Prop :=
  ∀ k : string, k ∈ typeNames s → inherited_key k = false.

(** No bit with a type name other than [typeName] is named like a member
    every object inherits. *)
Definition other_names_plain (typeName : string) (s : t) : Prop :=
  ∀ k : string, k ∈ typeNames s → inherited_key k = true → k = typeName.

Record well_formed (s : t) : Prop := {
  wf_painted : painted s;
  wf_all_bit : ALL_TYPES ∈ typeNames s;
  wf_nonempty : allowedTypes s ≠ ∅;
  wf_exclusive : ALL_TYPES ∈ allowedTypes s → allowedTypes s = {[ALL_TYPES]};
  wf_registered : registered_names s
}.

(** A filter with the bits "all", "foo" and "bar", for examples. *)
Definition foo : Item :=
  {| name := "foo"; label := "Foo"; title := None; jslogContext := "foo" |}.
Definition bar : Item :=
  {| name := "bar"; label := "Bar"; title := None; jslogContext := "bar" |}.

Definition fresh_filter : t :=
  {| typeFilterElements :=
       [ {| typeName := "all"; selected := true; tabIndex := 0 |};
         {| typeName := "foo"; selected := false; tabIndex := -1 |};
         {| typeName := "bar"; selected := false; tabIndex := -1 |} ];
     allowedTypes := {[ALL_TYPES]};
     setting := None;
     dispatched := [FILTER_CHANGED] |}.

Definition click (modifier : bool) (i : nat) : KeyboardEvent :=
  {| metaKey := false; ctrlKey := modifier; altKey := false; shiftKey := false;
     target := Some i |}.
End NamedBitSetFilterUI_run.

(** ** Operations on a checkbox filter, and a bar with one filter *)

Module Filter_examples.

(** What can happen to a checkbox filter after it is built. *)
Inductive CheckboxOperation :=
| SetChecked (checked : bool)
| FireUpdated.

Definition run_checkbox (op : CheckboxOperation) (s : CheckboxFilterUI.t)
    : CheckboxFilterUI.t :=
  match op with
  | SetChecked checked => CheckboxFilterUI.setChecked checked s
  | FireUpdated => CheckboxFilterUI.fireUpdated s
  end.

(** A store in which every reference denotes a checkbox filter that is
    checked and active when checked. *)
Definition checked_boxes : @FilterBar.Store CheckboxFilterUI.t :=
  λ _, CheckboxFilterUI.new "Hide data URLs" (Some true) None None.

Definition one_filter_bar : FilterBar.t :=
  FilterBar.addFilter checked_boxes 0 (FilterBar.new "network" None).

End Filter_examples.

(** ** An interaction event over integer microseconds *)

Module INPBreakdown_examples.
Import INPBreakdown.

(** Windows as pairs of bounds, over integer microseconds. *)
Definition pair_window (min max : Z) : Z * Z := (min, max).

Definition english (s : UIString) : string :=
  match s with
  | inputDelayLabel => "Input delay"
  | processingDurationLabel => "Processing duration"
  | presentationDelayLabel => "Presentation delay"
  | noInteractions => "No interaction detected"
  | subpart => "Subpart"
  | duration => "Duration"
  end.

Definition interaction : @SyntheticInteractionPair Z unit :=
  {| ts := 1000%Z; inputDelay := 30%Z; mainThreadHandling := 50%Z;
     presentationDelay := 20%Z; eventFields := tt |}.
End INPBreakdown_examples.

(** ** How a run of the polling loop is described *)

Module DevToolsPage_run.
Import DevToolsPage.

Section Described.
Context {T : Type} (truthy : T → bool) (fn : nat → Completion (option T)).

(** An attempt that makes the loop go on: [fn] resolved to a falsy value. *)
Definition falsy (c : Completion (option T)) : bool :=
  match c with
  | Returned result => negb (is_truthy truthy result)
  | Thrown _ => false
  end.

(** The [k] calls from call number [base] on were all falsy. *)
Definition all_falsy (base k : nat) : Prop :=
  ∀ j, (j < k)%nat → falsy (fn (base + j)) = true.

(** [failed] attempts, each followed by the delay of 100ms, and then
    possibly one more call that ends the loop. *)
Definition attempts_log (failed : nat) (last : bool) : list Effect :=
  mjoin (replicate failed [FnCalled; TimeoutMs 100]) ++ (if last then [FnCalled] else []).

(** What [k] calls from call number [base] on, with [budget] attempts
    left, have to look like for the loop to end with [out]. *)
Definition ends_with (base : nat) (budget : Z) (out : Completion (option T))
    (k : nat) (l : list Effect) : Prop :=
  (Z.of_nat k ≤ Z.max 0 budget)%Z
  ∧ match out with
    | Returned None =>
        Z.of_nat k = Z.max 0 budget ∧ all_falsy base k ∧ l = attempts_log k false
    | Returned (Some v) =>
        truthy v = true
        ∧ ∃ m, k = S m ∧ fn (base + m) = Returned (Some v)
               ∧ all_falsy base m ∧ l = attempts_log m true
    | Thrown reason =>
        ∃ m, k = S m ∧ fn (base + m) = Thrown reason
             ∧ all_falsy base m ∧ l = attempts_log m true
    end.
End Described.

(** A polled function that finds the value 7 at its second call. *)
Definition second_call_finds (k : nat) : Completion (option Z) :=
  Returned (if (k =? 1)%nat then Some 7%Z else None).

Definition nonzero (z : Z) : bool := negb (z =? 0)%Z.
End DevToolsPage_run.

(** ** Keyboard navigation between the bits of a named bit-set filter *)

Module NamedBitSetFilterUI_keys.
Import NamedBitSetFilterUI.

(** An element is named by a number: the numbers below the length of
    [typeFilterElements] are its elements by position, any other number
    is an element that is not among them. *)
Definition indexOf (s : t) (target : nat) : Z :=
  if (target <? length (typeFilterElements s))%nat then Z.of_nat target else (-1)%Z.

(** [findIndex(el => el.classList.contains('selected'))] *)
Fixpoint findIndexSelected (elements : list TypeFilterElement) (from : Z) : Z :=
  match elements with
  | [] => (-1)%Z
  | el :: rest => if selected el then from else findIndexSelected rest (from + 1)%Z
  end.

Definition with_typeFilterElements (els : list TypeFilterElement) (s : t) : t :=
  {| typeFilterElements := els;
     allowedTypes := allowedTypes s;
     setting := setting s;
     dispatched := dispatched s |}.

(** What [keyFocusNextBit] returns, the element it gave the focus to (if
    any), and the filter as it leaves it. *)
Record Moved := {
  returned : bool;
  focused : option nat;
  after : t
}.

Definition keyFocusNextBit (target : nat) (selectPrevious : bool) (s : t) : Moved :=
  let index := indexOf s target in
  let index :=
    if (index =? -1)%Z then
      let index := findIndexSelected (typeFilterElements s) 0 in
      if (index =? -1)%Z
      then (if selectPrevious then Z.of_nat (length (typeFilterElements s)) else (-1)%Z)
      else index
    else index in
  let nextIndex := if selectPrevious then (index - 1)%Z else (index + 1)%Z in
  if (nextIndex <? 0)%Z || (Z.of_nat (length (typeFilterElements s)) <=? nextIndex)%Z
  then {| returned := false; focused := None; after := s |}
  else
    let els := alter (set_tabIndex 0) (Z.to_nat nextIndex) (typeFilterElements s) in
    let els := alter (set_tabIndex (-1)) target els in
    {| returned := true;
       focused := Some (Z.to_nat nextIndex);
       after := with_typeFilterElements els s |}.

(** A keydown event: the key, and what it shares with a click. *)
Record KeydownEvent := {
  key : string;
  keyboard : KeyboardEvent
}.

(** What the handler leaves behind: whether it consumed the event, the
    element that got the focus, and the filter. *)
Record Handled := {
  consumed : bool;
  focus : option nat;
  filter : t
}.

Section Keydown.
(** [Platform.KeyboardUtilities.isEnterOrSpaceKey] is declared outside of
    the sources at hand: it is a parameter. *)
Variable isEnterOrSpaceKey : KeydownEvent → bool.

Definition onTypeFilterKeydown (isMac : bool) (event : KeydownEvent) (s : t)
    : option Handled :=
  match target (keyboard event) with
  | None => Some {| consumed := false; focus := None; filter := s |}
  | Some element =>
      if bool_decide (key event = "ArrowLeft") || bool_decide (key event = "ArrowUp")
         || (bool_decide (key event = "Tab") && shiftKey (keyboard event))
      then
        let moved := keyFocusNextBit element true s in
        Some {| consumed := returned moved; focus := focused moved; filter := after moved |}
      else if bool_decide (key event = "ArrowRight") || bool_decide (key event = "ArrowDown")
              || (bool_decide (key event = "Tab") && negb (shiftKey (keyboard event)))
      then
        let moved := keyFocusNextBit element false s in
        Some {| consumed := returned moved; focus := focused moved; filter := after moved |}
      else if isEnterOrSpaceKey event
      then
        s' ← onTypeFilterClicked isMac (keyboard event) s;
        Some {| consumed := false; focus := None; filter := s' |}
      else Some {| consumed := false; focus := None; filter := s |}
  end.
End Keydown.

(** The keys that move the focus. *)
Definition navigates (event : KeydownEvent) : bool :=
  bool_decide (key event ∈ ["ArrowLeft"; "ArrowUp"; "ArrowRight"; "ArrowDown"; "Tab"]).

(** Exactly the element [i] can be reached with the Tab key. *)
Definition only_tab_stop (i : nat) (s : t) : Prop :=
  ∀ j el, typeFilterElements s !! j = Some el → (tabIndex el = 0%Z ↔ j = i).

End NamedBitSetFilterUI_keys.

(** ** A filter that keeps its selection in a setting, for examples *)

Module NamedBitSetFilterUI_stored.
Import NamedBitSetFilterUI NamedBitSetFilterUI_run.

Definition stored_filter : t :=
  {| typeFilterElements := typeFilterElements fresh_filter;
     allowedTypes := {[ALL_TYPES]};
     setting := Some ∅;
     dispatched := [FILTER_CHANGED] |}.

(** The filter with only "foo" selected. *)
Definition foo_filter : t :=
  {| typeFilterElements :=
       [ {| typeName := "all"; selected := false; tabIndex := 0 |};
         {| typeName := "foo"; selected := true; tabIndex := -1 |};
         {| typeName := "bar"; selected := false; tabIndex := -1 |} ];
     allowedTypes := {["foo"]};
     setting := None;
     dispatched := [FILTER_CHANGED; FILTER_CHANGED] |}.

(** [stored_filter] after a click on "foo". *)
Definition stored_foo_filter : t :=
  {| typeFilterElements := typeFilterElements foo_filter;
     allowedTypes := {["foo"]};
     setting := Some {["foo" := true]};
     dispatched := [FILTER_CHANGED; FILTER_CHANGED] |}.

End NamedBitSetFilterUI_stored.

(** ** A filter bar together with the filters it refers to *)

Module FilterBar_run.
Import FilterBar.

Section WithFilters.
Context {Filter : Type} `{FilterUI Filter}.

Record World := {
  store : @Store Filter;
  bar : FilterBar.t
}.

(** The filter object behind one reference replaced by its new state. *)
Definition put (filter : nat) (state : Filter) (σ : @Store Filter) : @Store Filter :=
  λ r, if decide (r = filter) then state else σ r.

(** What can happen: the methods of the bar, and a filter that changes
    its state and fires FILTER_CHANGED. *)
Inductive Operation :=
| AddFilter (filter : nat)
| Clear
| SetEnabled (enabled : bool)
| FilterChanges (filter : nat) (state : Filter).

Definition run (op : Operation) (w : World) : World :=
  match op with
  | AddFilter filter =>
      {| store := store w; bar := addFilter (store w) filter (bar w) |}
  | Clear =>
      {| store := store w; bar := clear (store w) (bar w) |}
  | SetEnabled enabled =>
      {| store := store w; bar := setEnabled enabled (bar w) |}
  | FilterChanges filter state =>
      let σ := put filter state (store w) in
      {| store := σ; bar := fire_FILTER_CHANGED filter σ (bar w) |}
  end.

Definition runs (ops : list Operation) (w : World) : World :=
  foldl (λ w op, run op w) w ops.
End WithFilters.

(** A checkbox filter that is not active: unchecked, active when checked. *)
Definition unchecked_box : CheckboxFilterUI.t :=
  CheckboxFilterUI.setChecked false (CheckboxFilterUI.new "Hide data URLs" (Some true) None None).

End FilterBar_run.

(** ** Selectors with a query handler prefix *)

Module DevToolsPage_selectors.

(** The handlers [performActionOnSelector] knows, in the order in which the
    set hands them out. *)
Definition queryHandlers : list string :=
  ["pierceShadowText"; "pierce"; "aria"; "xpath"; "text"].

(** [s.startsWith(prefix)] *)
Definition startsWith (s prefix : string) : bool := String.prefix prefix s.

(** [s.substring(n)] *)
Fixpoint substring_from (n : nat) (s : string) : string :=
  match n, s with
  | O, _ => s
  | S n, String _ rest => substring_from n rest
  | S _, EmptyString => EmptyString
  end.

(** The loop over the handlers: the first handler whose prefix the
    selector starts with is taken and its prefix cut off. *)
Fixpoint chooseHandler (handlers : list string) (queryHandler selector : string)
    : string * string :=
  match handlers with
  | [] => (queryHandler, selector)
  | handler :: handlers =>
      let prefix := (handler ++ "/")%string in
      if startsWith selector prefix
      then (handler, substring_from (String.length prefix) selector)
      else chooseHandler handlers queryHandler selector
  end.

(** The handler and the selector [performActionOnSelector] goes on with. *)
Definition splitSelector (selector : string) : string * string :=
  chooseHandler queryHandlers "pierce" selector.

(** The text [$] queries the page with, for a handler and a selector. *)
Definition queryText (handler selector : string) : string :=
  (handler ++ "/" ++ selector)%string.

(** The query [performActionOnSelector] ends up making for a selector. *)
Definition queryFor (selector : string) : string :=
  queryText (fst (splitSelector selector)) (snd (splitSelector selector)).

End DevToolsPage_selectors.

(** ** Events recorded in the page for a test to pick up *)

Module PendingEvents.

Section Events.
Context {Event : Type}.

(** The page as [installEventListener] and [getPendingEvents] see it:
    [pendingEvents] is [window.__pendingEvents] ([None] while the property
    does not exist), [recording] has one entry per listener that
    [installEventListener] has added, the event type it listens to. *)
Record Window := {
  pendingEvents : option (gmap string (list Event));
  recording : list string
}.

Definition fresh_window : Window := {| pendingEvents := None; recording := [] |}.

Definition installEventListener (eventType : string) (w : Window) : Window :=
  {| pendingEvents :=
       Some (match pendingEvents w with Some m => m | None => ∅ end);
     recording := recording w ++ [eventType] |}.

(** The body of the listener, run for an event [e] of its type.  A
    listener exists only once [installEventListener] has created the map. *)
Definition record_event (eventType : string) (e : Event) (w : Window) : Window :=
  match pendingEvents w with
  | None => w
  | Some m =>
      let events :=
        match m !! eventType with
        | Some events => events
        | None => []
        end in
      {| pendingEvents := Some (<[eventType := events ++ [e]]> m);
         recording := recording w |}
  end.

(** An event of type [eventType] reaches the window: every listener for
    that type runs. *)
Definition dispatchEvent (eventType : string) (e : Event) (w : Window) : Window :=
  foldl (λ w listener, if decide (listener = eventType) then record_event eventType e w else w)
        w (recording w).

Definition dispatchEvents (events : list (string * Event)) (w : Window) : Window :=
  foldl (λ w typed, dispatchEvent typed.1 typed.2 w) w events.

(** The result is [None] for [undefined]. *)
Definition getPendingEvents (eventType : string) (w : Window)
    : option (list Event) * Window :=
  match pendingEvents w with
  | None => (None, w)
  | Some m =>
      let pending := m !! eventType in
      (pending,
       {| pendingEvents := Some (<[eventType := []]> m);
          recording := recording w |})
  end.

(** The events of one type among typed events, in order. *)
Definition of_type (eventType : string) (events : list (string * Event)) : list Event :=
  snd <$> List.filter (λ typed, bool_decide (typed.1 = eventType)) events.

Definition listeners_for (eventType : string) (w : Window) : nat :=
  length (List.filter (λ listener, bool_decide (listener = eventType)) (recording w)).
End Events.

Arguments Window : clear implicits.

End PendingEvents.

(** ** ScreenshotError *)

Module ScreenshotError.

(** The summary may be 4000 long; the cut-off leaves room for the markup. *)
Definition SUMMARY_LENGTH_CUTOFF : nat := 3900.

(** The message and the stack of an error are measured and cut by
    length.  [length] and [slice] of a JavaScript string count UTF-16 code
    units, so these strings are kept as the sequences of their code units,
    each code unit as its number. *)
Definition CodeUnit : Type := N.
Definition JSString : Type := list CodeUnit.

(** A string literal of the source whose characters are all ASCII: every
    character is one code unit, with the number of the character. *)
Definition literal (s : string) : JSString :=
  Ascii.N_of_ascii <$> String.list_ascii_of_string s.

(** A string is truthy exactly when it is not empty. *)
Definition truthy_units (s : JSString) : bool :=
  match s with
  | [] => false
  | _ :: _ => true
  end.

(** An [Error] as far as the class reads it: message, stack, cause. *)
Inductive Error :=
| mkError (message : JSString) (stack : option JSString) (cause : Cause)
with Cause :=
| no_cause
| caused_by (error : Error).

Definition error_message (e : Error) : JSString :=
  match e with mkError message _ _ => message end.
Definition error_stack (e : Error) : option JSString :=
  match e with mkError _ stack _ => stack end.
Definition error_cause (e : Error) : option Error :=
  match e with
  | mkError _ _ (caused_by cause) => Some cause
  | mkError _ _ no_cause => None
  end.

(** The line feed, and the separator of the parts of a message. *)
Definition line_feed : JSString := [10%N].
Definition blank_line : JSString := line_feed ++ line_feed.

(** [parts.join(separator)] *)
Fixpoint join (separator : JSString) (parts : list JSString) : JSString :=
  match parts with
  | [] => []
  | [part] => part
  | part :: parts => part ++ separator ++ join separator parts
  end.

(** [s.slice(0, n)]: the first [n] code units, all of them when there are
    fewer. *)
Definition slice_to (n : nat) (s : JSString) : JSString := take n s.

(** [screenshots] maps the name of an artifact to its [filePath]. *)
Record t := {
  message : JSString;
  stack : JSString;
  cause : option Error;
  screenshots : gmap string string;
  screenshotPath : option string
}.

(** The constructor.  An absent [message] is [None]. *)
Definition new (screenshots : gmap string string) (message : option JSString)
    (cause : option Error) (screenshotPath : option string) : t :=
  let parts : list (option JSString) :=
    [ message;
      error_message <$> cause;
      error_message <$> (cause ≫= error_cause) ] in
  let message :=
    join blank_line
         (omap (λ x, x ≫= λ part, if truthy_units part then Some part else None) parts) in
  {| message := message;
     stack := default [] (cause ≫= error_stack);
     cause := cause;
     screenshots := screenshots;
     screenshotPath := screenshotPath |}.

Definition has_key (key : string) (screenshots : gmap string string) : bool :=
  bool_decide (is_Some (screenshots !! key)).

Definition toMiloSummary (e : t) : JSString :=
  if has_key "expected_image" (screenshots e) then []
  else if has_key "generated" (screenshots e) then
    literal "<pre>" ++ slice_to SUMMARY_LENGTH_CUTOFF (message e)
    ++ literal "</pre><p>Screenshot generated (see below)</p>"
  else
    let message :=
      slice_to SUMMARY_LENGTH_CUTOFF (message e ++ blank_line ++ stack e) in
    literal "<pre>" ++ message
    ++ literal "</pre><p>Unexpected error. See inspected and DevTools pages screenshots below.</p>".

(** The file system and the library functions the factories use. *)
Section Artifacts.
(** [os.tmpdir()], [path.basename], [path.join], [path.relative] and the
    hexadecimal SHA-256 digest belong to the platform: parameters. *)
Variable tmpdir : string.
Variable basename : string → string.
Variable path_join : string → string → string.
Variable path_relative : string → string → string.
Variable sha256_hex : string → string.
Variable GEN_DIR SOURCE_ROOT : string.

(** Files by path. *)
Definition Files := gmap string string.

(** [fs.copyFileSync] throws when the source does not exist: [None]. *)
Definition stashArtifact (originalFile tag : string) (fs : gmap string string)
    : option (string * gmap string string) :=
  let stashedFileName := (tag ++ "-" ++ basename originalFile)%string in
  let artifactPath := path_join tmpdir stashedFileName in
  content ← fs !! originalFile;
  Some (artifactPath, <[artifactPath := content]> fs).

Definition data_url_prefix : string := "data:image/png;base64,".

(** [base64Image.replace(/^data:image\/png;base64,/, '')] *)
Definition strip_data_url (base64Image : string) : string :=
  if String.prefix data_url_prefix base64Image
  then String.substring (String.length data_url_prefix)
         (String.length base64Image - String.length data_url_prefix) base64Image
  else base64Image.

(** The file holds the image that the text encodes; it is kept here as the
    text. *)
Definition saveArtifact (base64Image : string) (fs : gmap string string)
    : string * gmap string string :=
  let base64Image := strip_data_url base64Image in
  let fileName := sha256_hex base64Image in
  let artifactPath := path_join tmpdir fileName in
  (artifactPath, <[artifactPath := base64Image]> fs).

Definition fromGeneratedScreenshot (message : JSString) (generatedImgPath : string)
    (fs : gmap string string) : option (t * gmap string string) :=
  '(generated, fs) ← stashArtifact generatedImgPath "generated" fs;
  let screenshots : gmap string string := {[ "generated" := generated ]} in
  let screenshotPath :=
    path_join "test/goldens"
      (path_relative (path_join GEN_DIR "test/.generated") generatedImgPath) in
  Some (new screenshots (Some message) None (Some screenshotPath), fs).

Definition fromScreenshotAssertionError (error : Error)
    (goldenImgPath generatedImgPath diffImgPath : string) (fs : gmap string string)
    : option (t * gmap string string) :=
  '(expected, fs) ← stashArtifact goldenImgPath "expected" fs;
  '(actual, fs) ← stashArtifact generatedImgPath "actual" fs;
  '(diff, fs) ← stashArtifact diffImgPath "diff" fs;
  let screenshots : gmap string string :=
    <["expected_image" := expected]>
      (<["actual_image" := actual]> {[ "image_diff" := diff ]}) in
  let screenshotPath := path_relative SOURCE_ROOT goldenImgPath in
  Some (new screenshots None (Some error) (Some screenshotPath), fs).

(** Either the error as it came, or a [ScreenshotError]. *)
Definition fromBase64Images (error : Error)
    (inspectedPageScreenshot devToolsPageScreenshot : option string)
    (fs : gmap string string) : (Error + t) * gmap string string :=
  match inspectedPageScreenshot, devToolsPageScreenshot with
  | Some inspected, Some devTools =>
      if truthy_string inspected && truthy_string devTools then
        let '(inspectedPath, fs) := saveArtifact inspected fs in
        let '(devToolsPath, fs) := saveArtifact devTools fs in
        let screenshots : gmap string string :=
          <["inspectedPage" := inspectedPath]> {[ "devToolsPage" := devToolsPath ]} in
        (inr (new screenshots None (Some error) None), fs)
      else (inl error, fs)
  | _, _ => (inl error, fs)
  end.
End Artifacts.

End ScreenshotError.

(** ** Files and library functions for examples of ScreenshotError *)

Module ScreenshotError_examples.
Import ScreenshotError.

Definition simple_join (a b : string) : string := (a ++ "/" ++ b)%string.

(** Stand-ins for the library functions: they only have to be functions. *)
Definition whole_path (path : string) : string := path.
Definition relative_to (from to : string) : string := to.
Definition digest (content : string) : string := ("sha-" ++ content)%string.

Definition files : gmap string string :=
  <["golden.png" := "G"]> (<["generated.png" := "N"]> {[ "diff.png" := "D" ]}).

Definition assertion_failed : Error :=
  mkError (literal "expected screenshots to match") (Some (literal "at compare")) no_cause.
End ScreenshotError_examples.

(** * Properties *)

(** ** The named bit-set filter *)

Section NamedBitSetFilterUI_facts.
Import NamedBitSetFilterUI NamedBitSetFilterUI_run.
Implicit Types (s : t) (a : gset string).

Lemma truthy_string_true (s : string) : truthy_string s = true ↔ s ≠ "".
Proof. destruct s; simpl; split; congruence. Qed.

Lemma size_zero_empty a : size a = 0 ↔ a = ∅.
Proof. rewrite size_empty_iff. by unfold_leibniz. Qed.

Lemma normalised_exclusive a : ALL_TYPES ∈ normalised a → normalised a = {[ALL_TYPES]}.
Proof.
  unfold normalised. case_bool_decide as Hsz; simpl; [done|].
  case_bool_decide as Hall; [done|]. intros Hin. by destruct Hall.
Qed.

Lemma normalised_nonempty a : normalised a ≠ ∅.
Proof.
  unfold normalised. case_bool_decide as Hsz; simpl; [set_solver|].
  case_bool_decide; [set_solver|]. by rewrite size_zero_empty in Hsz.
Qed.

Lemma normalised_id a : a ≠ ∅ → (ALL_TYPES ∈ a → a = {[ALL_TYPES]}) → normalised a = a.
Proof.
  intros Hne Hall. unfold normalised.
  case_bool_decide as Hsz; simpl.
  - by rewrite size_zero_empty in Hsz.
  - case_bool_decide; [symmetry; auto | done].
Qed.

Lemma update_allowedTypes s : allowedTypes (update s) = normalised (allowedTypes s).
Proof.
  unfold update, normalised; simpl.
  destruct (_ || _); [by rewrite (left_id_L ∅ (∪)) | done].
Qed.

Lemma update_dispatched s : dispatched (update s) = dispatched s ++ [FILTER_CHANGED].
Proof. done. Qed.

Lemma update_setting s : setting (update s) = setting s.
Proof. done. Qed.

Lemma or_empty_string (n : string) : (if truthy_string n then n else "") = n.
Proof. by destruct n. Qed.

Lemma update_elements s :
  typeFilterElements (update s) =
  (λ el, set_selected (bool_decide (typeName el ∈ normalised (allowedTypes s))) el)
    <$> typeFilterElements s.
Proof.
  unfold update, normalised; simpl. apply map_ext; intros el.
  rewrite or_empty_string. destruct (_ || _); [by rewrite (left_id_L ∅ (∪)) | done].
Qed.

Lemma update_typeNames s : typeNames (update s) = typeNames s.
Proof.
  unfold typeNames. rewrite update_elements, <- list_fmap_compose.
  by apply list_fmap_ext.
Qed.

Lemma update_bitSelected s i :
  bitSelected i (update s) =
  (λ el, bool_decide (typeName el ∈ allowedTypes (update s))) <$> typeFilterElements s !! i.
Proof.
  unfold bitSelected. rewrite update_allowedTypes, update_elements, list_lookup_fmap.
  by destruct (typeFilterElements s !! i).
Qed.

Lemma elem_of_allowedTypesFrom rec (els : list TypeFilterElement) (k : string) :
  k ∈ allowedTypesFrom rec els ↔
  k ≠ "" ∧ record_truthy rec k = true ∧ k ∈ typeName <$> els.
Proof.
  unfold allowedTypesFrom.
  assert (∀ acc : gset string,
    k ∈ foldl (λ acc element,
                 let typeName := typeName element in
                 if truthy_string typeName && record_truthy rec typeName
                 then acc ∪ {[typeName]} else acc) acc els
    ↔ k ∈ acc ∨ (k ≠ "" ∧ record_truthy rec k = true ∧ k ∈ typeName <$> els)) as Hgen.
  { induction els as [|el els IH]; intros acc.
    - simpl. rewrite elem_of_nil. tauto.
    - rewrite fmap_cons. cbn [foldl]. rewrite IH, elem_of_cons.
      destruct (truthy_string (typeName el)) eqn:Ht; cbn [andb].
      + apply truthy_string_true in Ht.
        destruct (record_truthy rec (typeName el)) eqn:Hr.
        * rewrite elem_of_union, elem_of_singleton. clear IH.
          intuition (subst; auto).
        * clear IH. intuition (subst; auto; congruence).
      + assert (typeName el = "") as Hempty by (by destruct (typeName el)).
        clear IH. intuition (subst; auto; congruence). }
  rewrite Hgen, elem_of_empty. tauto.
Qed.

Lemma inherited_key_empty : inherited_key "" = false.
Proof. reflexivity. Qed.

Lemma inherited_key_all : inherited_key ALL_TYPES = false.
Proof. reflexivity. Qed.

(** What reads truthy in the record built from a set: the names of the
    set, and the members every object inherits. *)
Lemma record_truthy_updatedSetting a (k : string) :
  record_truthy (updatedSetting a) k = true ↔ k ∈ a ∨ inherited_key k = true.
Proof.
  unfold record_truthy, updatedSetting.
  destruct (gset_to_gmap true (a ∖ {["__proto__"]}) !! k) as [b|] eqn:Hk.
  - apply lookup_gset_to_gmap_Some in Hk as [Hin <-]. split; [|done].
    left. by apply elem_of_difference in Hin as [? _].
  - apply lookup_gset_to_gmap_None in Hk. split; [by right|].
    intros [Hin|Hinh]; [|done].
    destruct (decide (k = "__proto__")) as [->|Hne]; [reflexivity|].
    destruct Hk. apply elem_of_difference. split; [done|].
    by rewrite elem_of_singleton.
Qed.

(** *** What one operation does *)

Lemma toggleTypeFilter_unfold typeName allowMultiSelect s :
  toggleTypeFilter typeName allowMultiSelect s =
  let a := toggled typeName allowMultiSelect (allowedTypes s) in
  match setting s with
  | None => Some (update (with_allowedTypes a s))
  | Some _ =>
      let s1 := with_setting (Some (updatedSetting a)) (with_allowedTypes a s) in
      Some (update (with_allowedTypes
                      (allowedTypesFrom (updatedSetting a) (typeFilterElements s)) s1))
  end.
Proof.
  unfold toggleTypeFilter, toggled, Setting_set, settingChanged; simpl.
  by destruct (setting s).
Qed.

Lemma toggleTypeFilter_total typeName allowMultiSelect s :
  is_Some (toggleTypeFilter typeName allowMultiSelect s).
Proof. rewrite toggleTypeFilter_unfold; simpl. by destruct (setting s). Qed.

Ltac size_to_empty :=
  repeat match goal with
         | H : size _ = 0 |- _ => apply size_zero_empty in H
         | H : size _ ≠ 0 |- _ => rewrite size_zero_empty in H
         end.

Ltac toggled_cases :=
  unfold toggled; cbn [andb negb];
  repeat (case_bool_decide; cbn [andb negb] in * ); size_to_empty.

Lemma toggled_all allowMultiSelect a : toggled ALL_TYPES allowMultiSelect a = {[ALL_TYPES]}.
Proof. destruct allowMultiSelect; toggled_cases; set_solver. Qed.

Lemma toggled_single typeName a : toggled typeName false a = {[typeName]}.
Proof. toggled_cases; set_solver. Qed.

Lemma toggled_nonempty typeName allowMultiSelect a :
  toggled typeName allowMultiSelect a ≠ ∅.
Proof. destruct allowMultiSelect; toggled_cases; set_solver. Qed.

Lemma toggled_exclusive typeName allowMultiSelect a :
  ALL_TYPES ∈ toggled typeName allowMultiSelect a →
  toggled typeName allowMultiSelect a = {[ALL_TYPES]}.
Proof. destruct allowMultiSelect; toggled_cases; set_solver. Qed.

(** With the modifier, a name other than "all" changes sides and no
    other name but "all" does. *)
Lemma elem_of_toggled_multi typeName a (k : string) :
  typeName ≠ ALL_TYPES → k ≠ ALL_TYPES →
  k ∈ toggled typeName true a ↔ (if decide (k = typeName) then k ∉ a else k ∈ a).
Proof.
  intros Hne Hk. destruct (decide (k = typeName)) as [->|Hkn];
    toggled_cases; set_solver.
Qed.

(** *** What holds of every state a filter can be in *)

Lemma update_well_formed s :
  ALL_TYPES ∈ typeNames s → registered_names s → well_formed (update s).
Proof.
  intros Hall Hreg. split.
  - intros el. rewrite update_elements, update_allowedTypes, list_elem_of_fmap.
    by intros [el0 [-> _]].
  - by rewrite update_typeNames.
  - rewrite update_allowedTypes. apply normalised_nonempty.
  - rewrite update_allowedTypes. apply normalised_exclusive.
  - intros Hset k. rewrite update_allowedTypes, update_typeNames.
    rewrite update_setting in Hset. specialize (Hreg Hset).
    unfold normalised. destruct (_ || _); [|by auto].
    rewrite elem_of_singleton. by intros ->.
Qed.

Lemma toggleTypeFilter_well_formed typeName allowMultiSelect s s' :
  ALL_TYPES ∈ typeNames s →
  toggleTypeFilter typeName allowMultiSelect s = Some s' → well_formed s'.
Proof.
  intros Hall. rewrite toggleTypeFilter_unfold; simpl.
  destruct (setting s) eqn:Hset; intros [= <-]; apply update_well_formed; try done.
  - intros _ k. simpl. rewrite elem_of_allowedTypesFrom. naive_solver.
  - unfold registered_names; simpl. rewrite Hset. by intros [? ?].
Qed.

Lemma settingChanged_well_formed s s' :
  ALL_TYPES ∈ typeNames s → settingChanged s = Some s' → well_formed s'.
Proof.
  intros Hall. unfold settingChanged.
  destruct (setting s) eqn:Hset; intros [= <-]; apply update_well_formed; try done.
  intros _ k. simpl. rewrite elem_of_allowedTypesFrom. naive_solver.
Qed.

Lemma addBit_typeNames n s : typeNames (addBit n s) = typeNames s ++ [n].
Proof. unfold typeNames, addBit; simpl. by rewrite fmap_app. Qed.

Lemma foldl_addBit_typeNames items s :
  typeNames (foldl (λ s item, addBit (name item) s) s items) =
  typeNames s ++ (name <$> items).
Proof.
  revert s. induction items as [|item items IH]; intros s; simpl.
  - by rewrite app_nil_r.
  - by rewrite IH, addBit_typeNames, <- app_assoc.
Qed.

Lemma new_well_formed items setting s : new items setting = Some s → well_formed s.
Proof.
  unfold new.
  set (s3 := foldl _ _ items).
  assert (ALL_TYPES ∈ typeNames s3) as Hall.
  { unfold s3. rewrite foldl_addBit_typeNames. apply elem_of_app. left.
    unfold typeNames; simpl. apply list_elem_of_here. }
  destruct setting as [value|].
  - by apply settingChanged_well_formed.
  - by apply toggleTypeFilter_well_formed.
Qed.

Lemma run_well_formed op s s' : well_formed s → run op s = Some s' → well_formed s'.
Proof.
  intros Hwf. pose proof (wf_all_bit _ Hwf) as Hall.
  destruct op as [n m| | |value|isMac e]; simpl.
  - by apply toggleTypeFilter_well_formed.
  - by apply toggleTypeFilter_well_formed.
  - by apply settingChanged_well_formed.
  - destruct (setting s); [|done]. by apply settingChanged_well_formed.
  - unfold onTypeFilterClicked. destruct (target e) as [i|]; [|by intros [= <-]].
    destruct (typeFilterElements s !! i); [|done].
    by apply toggleTypeFilter_well_formed.
Qed.

Lemma new_total items setting : is_Some (new items setting).
Proof.
  unfold new. destruct setting as [value|]; [done|apply toggleTypeFilter_total].
Qed.

Lemma reachable_well_formed s : reachable s → well_formed s.
Proof.
  induction 1 as [items setting s Hnew | op s s' _ IH Hrun].
  - by eapply new_well_formed.
  - by eapply run_well_formed.
Qed.

Lemma new_fresh_filter : new [foo; bar] None = Some fresh_filter.
Proof. vm_compute. reflexivity. Qed.

Lemma normalised_subseteq_all a : a ⊆ {[ALL_TYPES]} → normalised a = {[ALL_TYPES]}.
Proof.
  intros Hsub. unfold normalised.
  case_bool_decide as Hsz; [done|]. rewrite size_zero_empty in Hsz.
  case_bool_decide; [done|]. set_solver.
Qed.

Lemma toggled_subseteq typeName allowMultiSelect a :
  toggled typeName allowMultiSelect a ⊆ a ∪ {[typeName]} ∪ {[ALL_TYPES]}.
Proof. destruct allowMultiSelect; toggled_cases; set_solver. Qed.

Lemma toggled_normalised typeName allowMultiSelect a :
  normalised (toggled typeName allowMultiSelect a) = toggled typeName allowMultiSelect a.
Proof. apply normalised_id; [apply toggled_nonempty | apply toggled_exclusive]. Qed.

Lemma normalised_all a : ALL_TYPES ∈ a → normalised a = {[ALL_TYPES]}.
Proof.
  intros Hin. unfold normalised.
  rewrite (bool_decide_eq_true_2 (ALL_TYPES ∈ a)) by done. by rewrite orb_true_r.
Qed.

(** With a setting, the names the toggle computes are non-empty names of
    bits when the toggled name is. *)
Lemma toggled_registered typeName allowMultiSelect s (k : string) :
  well_formed s → is_Some (setting s) →
  typeName ≠ "" → typeName ∈ typeNames s →
  k ∈ toggled typeName allowMultiSelect (allowedTypes s) → k ≠ "" ∧ k ∈ typeNames s.
Proof.
  intros Hwf Hset Hne Hin Hk.
  pose proof (toggled_subseteq typeName allowMultiSelect (allowedTypes s) k Hk) as Hsub.
  rewrite !elem_of_union, !elem_of_singleton in Hsub.
  destruct Hsub as [[Hold| ->]| ->]; [by apply (wf_registered _ Hwf Hset)|done|].
  split; [done|apply (wf_all_bit _ Hwf)].
Qed.

(** What comes back from the trip through the setting: the names the
    toggle computed, and every bit named like an inherited member. *)
Lemma elem_of_read_back typeName allowMultiSelect s (k : string) :
  well_formed s → is_Some (setting s) →
  typeName ≠ "" → typeName ∈ typeNames s →
  k ∈ allowedTypesFrom (updatedSetting (toggled typeName allowMultiSelect (allowedTypes s)))
                       (typeFilterElements s)
  ↔ k ∈ toggled typeName allowMultiSelect (allowedTypes s)
    ∨ (k ∈ typeNames s ∧ inherited_key k = true).
Proof.
  intros Hwf Hset Hne Hin.
  rewrite elem_of_allowedTypesFrom, record_truthy_updatedSetting.
  fold (typeNames s). split.
  - intros (Hk & [Ha|Hinh] & Hnames); [by left|by right].
  - intros [Ha|[Hnames Hinh]].
    + destruct (toggled_registered typeName allowMultiSelect s k Hwf Hset Hne Hin Ha).
      split_and!; [done|by left|done].
    + split_and!; [|by right|done].
      intros ->. by rewrite inherited_key_empty in Hinh.
Qed.

Lemma toggleTypeFilter_elements typeName allowMultiSelect s s' :
  toggleTypeFilter typeName allowMultiSelect s = Some s' →
  typeFilterElements s' =
  (λ el, set_selected
           (bool_decide (NamedBitSetFilterUI.typeName el ∈ allowedTypes s')) el)
    <$> typeFilterElements s.
Proof.
  rewrite toggleTypeFilter_unfold; cbv zeta.
  destruct (setting s); intros [= <-]; by rewrite update_elements, update_allowedTypes.
Qed.

(** The allowed types after a toggle.  Without a setting they are the set
    the toggle computed.  With a setting, and a registered, non-empty name,
    they are that set together with the bits named like an inherited
    member, unless the set is "all" alone. *)
Lemma toggleTypeFilter_allowedTypes typeName allowMultiSelect s s' :
  well_formed s →
  setting s = None ∨ (typeName ≠ "" ∧ typeName ∈ typeNames s) →
  toggleTypeFilter typeName allowMultiSelect s = Some s' →
  (toggled typeName allowMultiSelect (allowedTypes s) = {[ALL_TYPES]} →
   allowedTypes s' = {[ALL_TYPES]})
  ∧ (toggled typeName allowMultiSelect (allowedTypes s) ≠ {[ALL_TYPES]} →
     ∀ k : string,
       k ∈ allowedTypes s' ↔
       k ∈ toggled typeName allowMultiSelect (allowedTypes s)
       ∨ (is_Some (setting s) ∧ k ∈ typeNames s ∧ inherited_key k = true)).
Proof.
  intros Hwf Hcase. rewrite toggleTypeFilter_unfold; cbv zeta.
  set (a := toggled typeName allowMultiSelect (allowedTypes s)).
  destruct (setting s) as [old|] eqn:Hset; intros [= <-];
    rewrite update_allowedTypes; simpl.
  - destruct Hcase as [?|[Hne Hin]]; [done|].
    assert (is_Some (setting s)) as Hsome by (rewrite Hset; eauto).
    set (X := allowedTypesFrom (updatedSetting a) (typeFilterElements s)).
    assert (∀ k : string, k ∈ X ↔ k ∈ a ∨ (k ∈ typeNames s ∧ inherited_key k = true))
      as HX by (intros k; by apply elem_of_read_back).
    split.
    + intros Ha. apply normalised_all, HX. left. rewrite Ha. by apply elem_of_singleton.
    + intros Ha k.
      assert (ALL_TYPES ∉ a) as Hnot
        by (intros Hall; by apply toggled_exclusive in Hall).
      rewrite normalised_id.
      * rewrite HX. split; (intros [?|(? & ?)]; [by left|right]); [by split_and!|tauto].
      * pose proof (toggled_nonempty typeName allowMultiSelect (allowedTypes s)) as Hne'.
        apply set_choose_L in Hne' as [k0 Hk0]. intros Hempty.
        assert (k0 ∈ X) as Hk0' by (apply HX; by left).
        rewrite Hempty in Hk0'. by apply not_elem_of_empty in Hk0'.
      * intros Hall. apply HX in Hall as [?|[_ Hinh]]; [done|].
        by rewrite inherited_key_all in Hinh.
  - unfold a. rewrite toggled_normalised. split; [done|]. intros _ k.
    split; [by left|]. intros [?|[[? ?] _]]; done.
Qed.

(** Where no bit is named like an inherited member, and without a
    setting, the allowed types after a toggle are the set it computed. *)
Lemma toggleTypeFilter_plain typeName allowMultiSelect s s' :
  well_formed s →
  setting s = None ∨ (typeName ≠ "" ∧ typeName ∈ typeNames s ∧ plain_names s) →
  toggleTypeFilter typeName allowMultiSelect s = Some s' →
  allowedTypes s' = toggled typeName allowMultiSelect (allowedTypes s).
Proof.
  intros Hwf Hcase Hrun.
  destruct (toggleTypeFilter_allowedTypes typeName allowMultiSelect s s' Hwf)
    as [Hall Hother]; [tauto|done|].
  destruct (decide (toggled typeName allowMultiSelect (allowedTypes s) = {[ALL_TYPES]}))
    as [Heq|Hneq].
  - by rewrite (Hall Heq).
  - apply set_eq. intros k. rewrite (Hother Hneq). split; [|by left].
    intros [?|(Hsome & Hk & Hinh)]; [done|].
    destruct Hcase as [Hnone|(_ & _ & Hplain)].
    + rewrite Hnone in Hsome. by destruct Hsome.
    + by rewrite (Hplain k Hk) in Hinh.
Qed.

Lemma toggleTypeFilter_no_setting typeName allowMultiSelect s s' :
  setting s = None →
  toggleTypeFilter typeName allowMultiSelect s = Some s' → setting s' = None.
Proof.
  intros Hnone. rewrite toggleTypeFilter_unfold; cbv zeta. rewrite Hnone.
  by intros [= <-].
Qed.

Lemma toggleTypeFilter_dispatched typeName allowMultiSelect s s' :
  toggleTypeFilter typeName allowMultiSelect s = Some s' →
  dispatched s' = dispatched s ++ [FILTER_CHANGED].
Proof.
  rewrite toggleTypeFilter_unfold; cbv zeta.
  by destruct (setting s); intros [= <-].
Qed.

Lemma reachable_fresh_filter : reachable fresh_filter.
Proof. eapply reachable_new, new_fresh_filter. Qed.

(** *** Properties of the named bit-set filter *)

(** C1: after the constructor and after every operation (toggleTypeFilter,
    reset, settingChanged, a change of the setting, a click), a set of
    allowed types that contains "all" contains nothing else: it is
    exactly the set with the one element [ALL_TYPES]. *)
Theorem all_types_exclusive s :
  reachable s → ALL_TYPES ∈ allowedTypes s → allowedTypes s = {[ALL_TYPES]}.
Proof. intros Hs. apply wf_exclusive, reachable_well_formed, Hs. Qed.

Lemma all_types_exclusive_witness :
  reachable fresh_filter
  ∧ ALL_TYPES ∈ allowedTypes fresh_filter
  ∧ allowedTypes fresh_filter = {[ALL_TYPES]}.
Proof.
  assert (ALL_TYPES ∈ allowedTypes fresh_filter) as Hin
    by (change (ALL_TYPES ∈ ({[ALL_TYPES]} : gset string)); by apply elem_of_singleton_2).
  split; [exact reachable_fresh_filter|]. split; [exact Hin|].
  exact (all_types_exclusive fresh_filter reachable_fresh_filter Hin).
Defined.

(** C3: whatever the state of a filter that has its "all" bit,
    toggleTypeFilter with [ALL_TYPES], with or without multi-select,
    returns and leaves the allowed types equal to the set with the one
    element [ALL_TYPES]; isActive() is false afterwards.  The constructor
    adds the "all" bit first and nothing removes a bit. *)
Theorem select_all_clears_selection s allowMultiSelect :
  ALL_TYPES ∈ typeNames s →
  ∃ s', toggleTypeFilter ALL_TYPES allowMultiSelect s = Some s'
        ∧ allowedTypes s' = {[ALL_TYPES]}
        ∧ isActive s' = false.
Proof.
  intros Hbit.
  assert (∃ s', toggleTypeFilter ALL_TYPES allowMultiSelect s = Some s'
                ∧ allowedTypes s' = {[ALL_TYPES]}) as (s' & Hrun & Hall).
  { rewrite toggleTypeFilter_unfold; cbv zeta. rewrite toggled_all.
    destruct (setting s); (eexists; split; [reflexivity|]);
      rewrite update_allowedTypes; simpl; apply normalised_all.
    - apply elem_of_allowedTypesFrom. split_and!; [done| |exact Hbit].
      apply record_truthy_updatedSetting. left. by apply elem_of_singleton.
    - by apply elem_of_singleton. }
  exists s'. split_and!; [done..|].
  unfold isActive. rewrite Hall. by rewrite bool_decide_eq_true_2 by set_solver.
Qed.

Lemma select_all_clears_selection_witness :
  ALL_TYPES ∈ typeNames fresh_filter
  ∧ ∃ s', toggleTypeFilter ALL_TYPES true fresh_filter = Some s'
          ∧ allowedTypes s' = {[ALL_TYPES]}
          ∧ isActive s' = false.
Proof.
  assert (ALL_TYPES ∈ typeNames fresh_filter) as Hbit by apply list_elem_of_here.
  split; [exact Hbit|].
  exact (select_all_clears_selection fresh_filter true Hbit).
Defined.

(** C9: after the constructor and after every operation the set of
    allowed types is not empty, and some type name is accepted. *)
Theorem allowed_types_never_empty s :
  reachable s → allowedTypes s ≠ ∅ ∧ ∃ typeName, accept typeName s = true.
Proof.
  intros Hs. pose proof (wf_nonempty _ (reachable_well_formed _ Hs)) as Hne.
  split; [done|]. apply set_choose_L in Hne as [k Hk]. exists k.
  unfold accept. rewrite (bool_decide_eq_true_2 (k ∈ allowedTypes s)) by done.
  apply orb_true_r.
Qed.

Lemma allowed_types_never_empty_witness :
  reachable fresh_filter
  ∧ allowedTypes fresh_filter ≠ ∅
  ∧ ∃ typeName, accept typeName fresh_filter = true.
Proof.
  split; [exact reachable_fresh_filter|].
  exact (allowed_types_never_empty fresh_filter reachable_fresh_filter).
Defined.

(** C2, as the specification words it, fails: a click without the
    modifier on the selected "all" bit of a new filter leaves the bit
    selected. *)
Lemma click_does_not_always_toggle :
  ¬ (∀ isMac e i s s',
       reachable s → target e = Some i →
       onTypeFilterClicked isMac e s = Some s' →
       bitSelected i s' = negb <$> bitSelected i s).
Proof.
  intros Hclaim.
  specialize (Hclaim false (click false 0) 0%nat fresh_filter
                (dispatchEventToListeners FILTER_CHANGED fresh_filter)
                reachable_fresh_filter eq_refl).
  discriminate Hclaim. vm_compute. reflexivity.
Qed.

(** Why the selection part below depends on type names once the filter
    keeps its selection in a setting.  [settingChanged] skips a bit whose
    type name is the empty string, so a click on such a bit leaves it
    unselected. *)
Lemma empty_name_bit_with_setting :
  (s ← new [ {| name := ""; label := "Other"; title := None; jslogContext := "other" |} ]
           (Some ∅);
   s' ← onTypeFilterClicked false (click false 1) s;
   Some (bitSelected 1 s, bitSelected 1 s', elements (allowedTypes s')))
  = Some (Some false, Some false, [ALL_TYPES]).
Proof. vm_compute. reflexivity. Qed.

(** And a bit named like a member every object inherits reads as marked in
    whatever record was stored: after a click on "foo" the bit
    "constructor" is selected as well, and a click with the modifier on the
    selected bit "constructor" leaves it selected. *)
Lemma inherited_name_bit_with_setting :
  (s ← new [ foo; {| name := "constructor"; label := "Constructor"; title := None;
                     jslogContext := "constructor" |} ]
           (Some ∅);
   s1 ← onTypeFilterClicked false (click false 1) s;
   s2 ← onTypeFilterClicked false (click true 2) s1;
   Some (selected <$> typeFilterElements s1, selected <$> typeFilterElements s2))
  = Some ([false; true; true], [false; true; true]).
Proof. vm_compute. reflexivity. Qed.

(** C2, amended: a click on a bit fires exactly one filter-changed event.
    With the multi-select modifier on a bit other than "all" the click
    toggles the selected state of the bit, provided the filter keeps no
    setting or the type name of the bit is neither empty nor the name of a
    member every object inherits.  Without the modifier, or on the "all"
    bit, the clicked bit is selected afterwards, provided the filter keeps
    no setting or the type name of the bit is not empty; and every bit with
    another type name is unselected afterwards, provided the filter keeps no
    setting, or the click is on the "all" bit, or the type name of the
    clicked bit is not empty and no other bit is named like a member every
    object inherits. *)
Theorem click_fires_once isMac e i el s :
  reachable s →
  target e = Some i →
  typeFilterElements s !! i = Some el →
  ∃ s', onTypeFilterClicked isMac e s = Some s'
        ∧ dispatched s' = dispatched s ++ [FILTER_CHANGED]
        ∧ if multiSelectModifier isMac e && negb (bool_decide (typeName el = ALL_TYPES))
          then setting s = None
               ∨ (typeName el ≠ "" ∧ inherited_key (typeName el) = false) →
               bitSelected i s' = Some (negb (selected el))
          else (setting s = None ∨ typeName el ≠ "" →
                bitSelected i s' = Some true)
               ∧ (setting s = None
                  ∨ typeName el = ALL_TYPES
                  ∨ (typeName el ≠ "" ∧ other_names_plain (typeName el) s) →
                  ∀ j el', typeFilterElements s' !! j = Some el' →
                           typeName el' ≠ typeName el → selected el' = false).
Proof.
  intros Hs Htarget Hel.
  pose proof (reachable_well_formed _ Hs) as Hwf.
  assert (typeName el ∈ typeNames s) as Hin.
  { unfold typeNames. apply list_elem_of_fmap. exists el. split; [done|].
    by eapply list_elem_of_lookup_2. }
  unfold onTypeFilterClicked. rewrite Htarget, Hel.
  fold (multiSelectModifier isMac e).
  remember (multiSelectModifier isMac e) as m eqn:Hm. clear Hm.
  remember (typeName el) as n eqn:Hn.
  destruct (toggleTypeFilter_total n m s) as [s' Hrun].
  exists s'. split; [done|]. split; [by eapply toggleTypeFilter_dispatched|].
  pose proof (toggleTypeFilter_elements _ _ _ _ Hrun) as Hels.
  assert (bitSelected i s' = Some (bool_decide (n ∈ allowedTypes s'))) as Hbit.
  { unfold bitSelected. rewrite Hels, list_lookup_fmap, Hel. simpl. by rewrite <- Hn. }
  assert (∀ j el', typeFilterElements s' !! j = Some el' →
                   selected el' = bool_decide (typeName el' ∈ allowedTypes s')) as Hpaint.
  { intros j el' Hj. rewrite Hels, list_lookup_fmap in Hj.
    destruct (typeFilterElements s !! j); [|done]. by injection Hj as <-. }
  assert (setting s = None ∨ n ≠ "" →
          (toggled n m (allowedTypes s) = {[ALL_TYPES]} → allowedTypes s' = {[ALL_TYPES]})
          ∧ (toggled n m (allowedTypes s) ≠ {[ALL_TYPES]} →
             ∀ k : string,
               k ∈ allowedTypes s' ↔
               k ∈ toggled n m (allowedTypes s)
               ∨ (is_Some (setting s) ∧ k ∈ typeNames s ∧ inherited_key k = true)))
    as Hchar.
  { intros Hcase. apply (toggleTypeFilter_allowedTypes n m s s' Hwf); [|done].
    destruct Hcase; [by left|by right]. }
  assert (∀ k : string, ({[k]} : gset string) = {[ALL_TYPES]} → k = ALL_TYPES) as Hone.
  { intros k Heq. apply (elem_of_singleton (C := gset string)). rewrite <- Heq.
    by apply elem_of_singleton. }
  destruct (m && negb (bool_decide (n = ALL_TYPES))) eqn:Hmulti.
  - apply andb_true_iff in Hmulti as [-> Hall].
    apply negb_true_iff, bool_decide_eq_false in Hall.
    intros Hcase.
    destruct Hchar as [HA HB]; [destruct Hcase as [?|[? ?]]; [by left|by right]|].
    rewrite Hbit. f_equal.
    rewrite (wf_painted _ Hwf el) by (by eapply list_elem_of_lookup_2). rewrite <- Hn.
    pose proof (elem_of_toggled_multi n (allowedTypes s) n Hall Hall) as Htog.
    rewrite decide_True in Htog by done.
    destruct (decide (toggled n true (allowedTypes s) = {[ALL_TYPES]})) as [Heq|Hneq].
    + rewrite (HA Heq).
      rewrite (bool_decide_eq_false_2 (n ∈ ({[ALL_TYPES]} : gset string)))
        by (by rewrite elem_of_singleton).
      rewrite bool_decide_eq_true_2; [done|].
      destruct (decide (n ∈ allowedTypes s)) as [?|Hnot]; [done|].
      apply Htog in Hnot. rewrite Heq in Hnot. by apply elem_of_singleton in Hnot.
    + apply eq_true_iff_eq.
      rewrite negb_true_iff, bool_decide_eq_true, bool_decide_eq_false.
      rewrite (HB Hneq n), Htog.
      split; [|by left]. intros [?|(Hsome & _ & Hinh)]; [done|].
      destruct Hcase as [Hnone|[_ Hplain]].
      * rewrite Hnone in Hsome. by destruct Hsome.
      * congruence.
  - assert (toggled n m (allowedTypes s) = {[n]}) as Hsingle.
    { destruct m; cbn [andb] in Hmulti.
      - apply negb_false_iff, bool_decide_eq_true in Hmulti. rewrite Hmulti.
        apply toggled_all.
      - apply toggled_single. }
    split.
    + intros Hcase. destruct (Hchar Hcase) as [HA HB].
      rewrite Hbit. f_equal. apply bool_decide_eq_true.
      destruct (decide (toggled n m (allowedTypes s) = {[ALL_TYPES]})) as [Heq|Hneq].
      * rewrite (HA Heq). rewrite Hsingle in Heq. apply Hone in Heq.
        by apply elem_of_singleton.
      * apply (HB Hneq). left. rewrite Hsingle. by apply elem_of_singleton.
    + intros Hcase j el' Hj Hother. rewrite (Hpaint j el' Hj).
      apply bool_decide_eq_false.
      destruct Hchar as [HA HB].
      { destruct Hcase as [?|[->|[? _]]]; [by left|by right|by right]. }
      destruct (decide (toggled n m (allowedTypes s) = {[ALL_TYPES]})) as [Heq|Hneq].
      * rewrite (HA Heq). rewrite Hsingle in Heq. apply Hone in Heq.
        rewrite elem_of_singleton. congruence.
      * rewrite (HB Hneq), Hsingle, elem_of_singleton.
        intros [?|(Hsome & Hk & Hinh)]; [done|].
        destruct Hcase as [Hnone|[Hall|[_ Hplain]]].
        -- rewrite Hnone in Hsome. by destruct Hsome.
        -- rewrite Hsingle, Hall in Hneq. done.
        -- by apply Hother, Hplain.
Qed.

Lemma click_fires_once_witness :
  reachable fresh_filter
  ∧ target (click true 1) = Some 1%nat
  ∧ typeFilterElements fresh_filter !! 1%nat
    = Some {| typeName := "foo"; selected := false; tabIndex := -1 |}
  ∧ ∃ s', onTypeFilterClicked false (click true 1) fresh_filter = Some s'
          ∧ dispatched s' = dispatched fresh_filter ++ [FILTER_CHANGED]
          ∧ (setting fresh_filter = None ∨ ("foo" ≠ "" ∧ inherited_key "foo" = false) →
             bitSelected 1 s' = Some true).
Proof.
  split; [exact reachable_fresh_filter|]. split; [reflexivity|]. split; [reflexivity|].
  exact (click_fires_once false (click true 1) 1
           {| typeName := "foo"; selected := false; tabIndex := -1 |}
           fresh_filter reachable_fresh_filter eq_refl eq_refl).
Defined.
End NamedBitSetFilterUI_facts.

(** ** The checkbox and text filters *)

Section Filter_facts.
Import Filter_examples.

Lemma run_checkbox_activeWhenChecked ops s :
  CheckboxFilterUI.activeWhenChecked (foldl (λ s op, run_checkbox op s) s ops)
  = CheckboxFilterUI.activeWhenChecked s.
Proof.
  revert s. induction ops as [|op ops IH]; intros s; [done|].
  simpl. rewrite IH. by destruct op.
Qed.

(** C4: a checkbox filter built with polarity [activeWhenChecked] reports
    active exactly when its checkbox state equals [Boolean(activeWhenChecked)],
    whatever has been done to the checkbox since; with the polarity
    omitted it is active exactly when the checkbox is not checked. *)
Theorem checkbox_active_iff_polarity title activeWhenChecked setting jslogContext ops :
  (CheckboxFilterUI.isActive
     (foldl (λ s op, run_checkbox op s)
            (CheckboxFilterUI.new title activeWhenChecked setting jslogContext) ops) = true
   ↔ CheckboxFilterUI.checked
       (foldl (λ s op, run_checkbox op s)
              (CheckboxFilterUI.new title activeWhenChecked setting jslogContext) ops)
     = Boolean_of activeWhenChecked)
  ∧ CheckboxFilterUI.isActive
      (foldl (λ s op, run_checkbox op s)
             (CheckboxFilterUI.new title None setting jslogContext) ops)
    = negb (CheckboxFilterUI.checked
              (foldl (λ s op, run_checkbox op s)
                     (CheckboxFilterUI.new title None setting jslogContext) ops)).
Proof.
  unfold CheckboxFilterUI.isActive, CheckboxFilterUI.checked.
  rewrite !run_checkbox_activeWhenChecked. simpl. split.
  - rewrite eqb_true_iff. split; congruence.
  - by destruct (CheckboxFilterUI.checkbox_checked _).
Qed.

(** C8: a text filter without a suggestion provider answers every
    request for completions with a promise resolved to the empty list. *)
Theorem completions_without_provider {Suggestion : Type}
    (s : TextFilterUI.t Suggestion) (expression prefix : string) (force : option bool) :
  TextFilterUI.suggestionProvider s = None →
  TextFilterUI.completions expression prefix force s = TextFilterUI.Resolved [].
Proof. intros Hnone. unfold TextFilterUI.completions. by rewrite Hnone. Qed.

Lemma completions_without_provider_witness :
  TextFilterUI.suggestionProvider (TextFilterUI.new (Suggestion := string)) = None
  ∧ TextFilterUI.completions "url:" "a" None (TextFilterUI.new (Suggestion := string))
    = TextFilterUI.Resolved [].
Proof.
  split; [reflexivity|].
  exact (completions_without_provider TextFilterUI.new "url:" "a" None eq_refl).
Defined.
End Filter_facts.

(** ** The filter bar *)

Section FilterBar_facts.
Import FilterBar Filter_examples.
Context {Filter : Type} `{FilterUI Filter}.
Implicit Types (σ : @Store Filter) (b : FilterBar.t).


(** The listeners called one after the other, for any list of them. *)
Lemma notify_listeners σ filter (listeners : list nat) b :
  let b' := foldl (λ b listener,
                     if decide (listener = filter) then filterChanged σ b else b)
                  b listeners in
  let n := length (List.filter (λ listener, bool_decide (listener = filter)) listeners) in
  dispatched b' = dispatched b ++ replicate n CHANGED
  ∧ filters b' = filters b
  ∧ registered b' = registered b
  ∧ filterButtonChecked b' =
    (if decide (n = 0) then filterButtonChecked b else hasActiveFilter σ b).
Proof.
  revert b. induction listeners as [|l ls IH]; intros b; cbn zeta.
  - simpl. by rewrite app_nil_r.
  - cbn [foldl List.filter]. specialize (IH (if decide (l = filter) then filterChanged σ b else b)).
    cbn zeta in IH. destruct IH as (Hd & Hf & Hr & Hc).
    rewrite Hd, Hf, Hr, Hc. clear Hd Hf Hr Hc.
    destruct (decide (l = filter)) as [->|Hne].
    + rewrite bool_decide_eq_true_2 by done. cbn [length replicate].
      split_and!; try done.
      * unfold filterChanged; simpl. by rewrite <- app_assoc.
      * by destruct (decide _).
    + by rewrite bool_decide_eq_false_2 by done.
Qed.


End FilterBar_facts.


(** A filter that was added once makes the bar dispatch one event. *)
Lemma filter_added_once_changes_once :
  FilterBar.registrations 0 Filter_examples.one_filter_bar = 1%nat
  ∧ FilterBar.dispatched
      (FilterBar.fire_FILTER_CHANGED 0 Filter_examples.checked_boxes
         Filter_examples.one_filter_bar) = [CHANGED]
  ∧ FilterBar.filterButtonChecked
      (FilterBar.fire_FILTER_CHANGED 0 Filter_examples.checked_boxes
         Filter_examples.one_filter_bar) = true.
Proof. vm_compute. by split_and!. Qed.

(** ** The INP breakdown component *)

Section INPBreakdown_facts.
Import INPBreakdown.
Context {Micro : Type} (add : Micro → Micro → Micro).
Context {EventFields ModelFields TraceWindowMicro : Type}.
Variable window_min window_max : TraceWindowMicro → Micro.
Variable traceWindowFromMicroSeconds : Micro → Micro → TraceWindowMicro.
Variable i18nString : UIString → string.
Variable time : Micro → string.

Local Abbreviation Event := (@SyntheticInteractionPair Micro EventFields).
Local Abbreviation Component := (@INPBreakdown.t Micro EventFields ModelFields).
Local Abbreviation overlaysFor :=
  (createOverlaysForSbupart add window_max traceWindowFromMicroSeconds i18nString).

(** C7: createOverlays and renderContent hand the component back as they
    found it: the model, its longest interaction event and the timings of
    the event are the same after the call as before. *)
Theorem model_is_read_only (this : Component) :
  snd (createOverlays (ModelFields := ModelFields)
         add window_max traceWindowFromMicroSeconds i18nString this) = this
  ∧ snd (renderContent (ModelFields := ModelFields)
           add window_max traceWindowFromMicroSeconds i18nString time this) = this.
Proof.
  unfold createOverlays, renderContent, bind, this_model, ret.
  destruct this as [[[event rest]|]]; simpl; [destruct event|]; done.
Qed.

(** What [traceWindowFromMicroSeconds] is taken to do: the window it
    returns has the two arguments as its bounds. *)
Hypothesis window_min_spec :
  ∀ min max, window_min (traceWindowFromMicroSeconds min max) = min.
Hypothesis window_max_spec :
  ∀ min max, window_max (traceWindowFromMicroSeconds min max) = max.

(** C10: the overlay built for an event has type TIMESPAN_BREAKDOWN and
    three sections in order; the first spans from [ts] to [ts + inputDelay],
    every further section starts where the one before ends, and the last
    ends at [ts + inputDelay + mainThreadHandling + presentationDelay].
    With subpart index 0, 1 or 2 the overlay has that one section. *)
Theorem breakdown_sections_contiguous (event : Event) :
  ∃ s1 s2 s3 : EntryBreakdown,
    overlaysFor event (-1)
    = [ {| type := TIMESPAN_BREAKDOWN; sections := [Some s1; Some s2; Some s3];
           renderLocation := BELOW_EVENT; entry := event |} ]
    ∧ window_min (bounds s1) = ts event
    ∧ window_max (bounds s1) = add (ts event) (inputDelay event)
    ∧ window_min (bounds s2) = window_max (bounds s1)
    ∧ window_max (bounds s2) = add (window_max (bounds s1)) (mainThreadHandling event)
    ∧ window_min (bounds s3) = window_max (bounds s2)
    ∧ window_max (bounds s3)
      = add (add (add (ts event) (inputDelay event)) (mainThreadHandling event))
            (presentationDelay event)
    ∧ overlaysFor event 0
      = [ {| type := TIMESPAN_BREAKDOWN; sections := [Some s1];
             renderLocation := BELOW_EVENT; entry := event |} ]
    ∧ overlaysFor event 1
      = [ {| type := TIMESPAN_BREAKDOWN; sections := [Some s2];
             renderLocation := BELOW_EVENT; entry := event |} ]
    ∧ overlaysFor event 2
      = [ {| type := TIMESPAN_BREAKDOWN; sections := [Some s3];
             renderLocation := BELOW_EVENT; entry := event |} ].
Proof.
  unfold createOverlaysForSbupart. cbn zeta.
  eexists _, _, _. split; [reflexivity|]. simpl.
  rewrite !window_min_spec, !window_max_spec. split_and!; reflexivity.
Qed.
End INPBreakdown_facts.

Lemma breakdown_sections_contiguous_witness :
  (∀ min max : Z, fst (INPBreakdown_examples.pair_window min max) = min)
  ∧ (∀ min max : Z, snd (INPBreakdown_examples.pair_window min max) = max)
  ∧ ∃ s1 s2 s3,
      INPBreakdown.sections
        <$> INPBreakdown.createOverlaysForSbupart Z.add snd INPBreakdown_examples.pair_window
              INPBreakdown_examples.english INPBreakdown_examples.interaction (-1)
      = [[Some s1; Some s2; Some s3]]
      ∧ fst (INPBreakdown.bounds s1) = 1000%Z
      ∧ snd (INPBreakdown.bounds s1) = 1030%Z
      ∧ snd (INPBreakdown.bounds s3) = 1100%Z.
Proof.
  split; [reflexivity|]. split; [reflexivity|].
  destruct (breakdown_sections_contiguous Z.add fst snd INPBreakdown_examples.pair_window
              INPBreakdown_examples.english (λ _ _, eq_refl) (λ _ _, eq_refl)
              INPBreakdown_examples.interaction)
    as (s1 & s2 & s3 & Hall & Hmin1 & Hmax1 & _ & _ & _ & Hmax3 & _).
  exists s1, s2, s3. split; [by rewrite Hall|].
  split; [exact Hmin1|]. split; [exact Hmax1 | exact Hmax3].
Defined.

(** ** Polling with an attempt cap *)

Section DevToolsPage_facts.
Import DevToolsPage DevToolsPage_run.
Context {T : Type} (truthy : T → bool) (fn : nat → Completion (option T)).

Lemma attempts_log_S failed last :
  attempts_log (S failed) last = [FnCalled; TimeoutMs 100] ++ attempts_log failed last.
Proof. done. Qed.

Lemma all_falsy_S base k :
  falsy truthy (fn base) = true → all_falsy truthy fn (S base) k →
  all_falsy truthy fn base (S k).
Proof.
  intros Hfirst Hrest [|j] Hj.
  - by rewrite Nat.add_0_r.
  - rewrite <- Nat.add_succ_comm. apply Hrest. lia.
Qed.

Lemma less_than_integer tries n : less_than tries (integer n) = (tries <? n)%Z.
Proof. unfold less_than, integer; simpl. by rewrite Z.mul_1_r. Qed.

(** With an integer cap of at most 2^53 the loop returns whenever the fuel
    exceeds the attempts left, and what it returns is described by
    [ends_with]. *)
Lemma poll_ends n fuel :
  (n ≤ two_to_53)%Z →
  ∀ tries w,
    (Z.to_nat (n - tries) < fuel)%nat →
    ∃ out w' k l,
      poll truthy fn fuel {| tries := integer n |} tries w = Some (out, w')
      ∧ fnCalls w' = (fnCalls w + k)%nat
      ∧ log w' = log w ++ l
      ∧ ends_with truthy fn (fnCalls w) (n - tries) out k l.
Proof.
  intros Hcap. induction fuel as [|fuel IH]; intros tries w Hfuel; [lia|].
  cbn [poll DevToolsPage.tries]. rewrite less_than_integer.
  destruct (Z.ltb_spec tries n) as [Hlt|Hge].
  - assert (increment tries = (tries + 1)%Z) as ->.
    { unfold increment. destruct (Z.ltb_spec tries two_to_53); [done|lia]. }
    unfold await_fn. destruct (fn (fnCalls w)) as [result|reason] eqn:Hfn.
    + destruct (is_truthy truthy result) eqn:Htruthy.
      * destruct result as [v|]; [|done].
        eexists _, _, 1%nat, [FnCalled]. split; [reflexivity|]. simpl.
        split; [lia|]. split; [done|]. split; [lia|]. split; [done|].
        exists 0%nat. rewrite Nat.add_0_r. split_and!; try done. intros j Hj; lia.
      * destruct (IH (tries + 1)%Z
                    (timeout 100 {| fnCalls := S (fnCalls w); log := log w ++ [FnCalled] |}))
          as (out & w' & k & l & Hrun & Hcalls & Hlog & Hbound & Hout); [lia|].
        simpl in Hcalls, Hlog, Hbound, Hout.
        assert (falsy truthy (fn (fnCalls w)) = true) as Hfalsy
          by (by rewrite Hfn; simpl; rewrite Htruthy).
        exists out, w', (S k), ([FnCalled; TimeoutMs 100] ++ l).
        split; [exact Hrun|]. split; [lia|].
        split; [by rewrite Hlog, <- !app_assoc|]. split; [lia|].
        destruct out as [[v|]|reason].
        -- destruct Hout as (Hv & m & -> & Hm & Hall & ->). split; [done|].
           exists (S m). rewrite <- Nat.add_succ_comm. split_and!; try done.
           by apply all_falsy_S.
        -- destruct Hout as (Hk & Hall & ->). split_and!; [lia | by apply all_falsy_S | done].
        -- destruct Hout as (m & -> & Hm & Hall & ->).
           exists (S m). rewrite <- Nat.add_succ_comm. split_and!; try done.
           by apply all_falsy_S.
    + eexists _, _, 1%nat, [FnCalled]. split; [reflexivity|]. simpl.
      split; [lia|]. split; [done|]. split; [lia|].
      exists 0%nat. rewrite Nat.add_0_r. split_and!; try done. intros j Hj; lia.
  - exists (Returned None), w, 0%nat, []. split; [done|].
    split; [lia|]. split; [by rewrite app_nil_r|]. split; [lia|].
    split_and!; [lia | intros j Hj; lia | done].
Qed.

(** Why the cap has to be at most 2^53: with the next double, 2^53 + 2,
    as the cap and a polled function that never finds anything, the
    counter stops at 2^53 and the loop does not end, whatever the fuel. *)
Lemma poll_stalls fuel :
  (∀ k, falsy truthy (fn k) = true) →
  ∀ tries w,
    (tries ≤ two_to_53)%Z →
    poll truthy fn fuel {| tries := integer (two_to_53 + 2) |} tries w = None.
Proof.
  intros Hfalsy. induction fuel as [|fuel IH]; intros tries w Htries; [done|].
  cbn [poll DevToolsPage.tries]. rewrite less_than_integer.
  destruct (Z.ltb_spec tries (two_to_53 + 2)) as [_|?]; [|lia].
  unfold await_fn. specialize (Hfalsy (fnCalls w)).
  destruct (fn (fnCalls w)) as [result|reason]; [|done]. simpl in Hfalsy.
  apply negb_true_iff in Hfalsy. rewrite Hfalsy. apply IH.
  unfold increment. destruct (Z.ltb_spec tries two_to_53); lia.
Qed.

(** C5, amended: with an integer cap [n] between 0 and 2^53,
    waitForFunctionWithTries returns (given fuel for more than [n]
    iterations), has called [fn] at most [n] times, has waited 100ms
    after every attempt that did not end the loop, returns the first
    truthy result of [fn] when there is one among the first [n], and
    returns undefined, not an exception, when the first [n] results are
    all falsy (then after exactly [n] calls).  Without options the cap is
    [Number.MAX_SAFE_INTEGER]. *)
Theorem waitForFunctionWithTries_capped (n : Z) (fuel : nat) :
  (0 ≤ n)%Z →
  (n ≤ two_to_53)%Z →
  (Z.to_nat n < fuel)%nat →
  ∃ out w,
    waitForFunctionWithTries truthy fn fuel (Some {| tries := integer n |}) start
    = Some (out, w)
    ∧ (Z.of_nat (fnCalls w) ≤ n)%Z
    ∧ match out with
      | Returned None =>
          Z.of_nat (fnCalls w) = n
          ∧ all_falsy truthy fn 0 (fnCalls w)
          ∧ log w = attempts_log (fnCalls w) false
      | Returned (Some v) =>
          truthy v = true
          ∧ ∃ k, fnCalls w = S k ∧ fn k = Returned (Some v)
                 ∧ all_falsy truthy fn 0 k ∧ log w = attempts_log k true
      | Thrown reason =>
          ∃ k, fnCalls w = S k ∧ fn k = Thrown reason
               ∧ all_falsy truthy fn 0 k ∧ log w = attempts_log k true
      end
    ∧ (∀ k v, (Z.of_nat k < n)%Z → fn k = Returned (Some v) → truthy v = true →
              all_falsy truthy fn 0 k →
              out = Returned (Some v) ∧ fnCalls w = S k)
    ∧ (all_falsy truthy fn 0 (Z.to_nat n) →
       out = Returned None ∧ Z.of_nat (fnCalls w) = n)
    ∧ waitForFunctionWithTries truthy fn fuel None start
      = waitForFunctionWithTries truthy fn fuel
          (Some {| tries := integer MAX_SAFE_INTEGER |}) start.
Proof.
  intros Hn Hcap Hfuel. unfold waitForFunctionWithTries, asyncScope_exec.
  destruct (poll_ends n fuel Hcap 0%Z start)
    as (out & w & k & l & Hrun & Hcalls & Hlog & Hbound & Hout);
    [by rewrite Z.sub_0_r|].
  simpl in Hcalls, Hlog, Hbound, Hout. rewrite Z.sub_0_r in Hbound, Hout.
  rewrite Z.max_r in Hbound, Hout by done. subst k l.
  exists out, w. split; [exact Hrun|]. split; [exact Hbound|]. split; [exact Hout|].
  split; [|split; [|reflexivity]].
  - intros k v Hk Hfn Hv Hfirst.
    assert (falsy truthy (fn k) = false) as Hnot by (by rewrite Hfn; simpl; rewrite Hv).
    destruct out as [[v'|]|reason].
    + destruct Hout as (Hv' & m & Hm & Hfn' & Hall & _).
      destruct (lt_eq_lt_dec m k) as [[Hlt| ->]|Hgt].
      * specialize (Hfirst m Hlt). simpl in Hfirst.
        rewrite Hfn' in Hfirst; simpl in Hfirst. by rewrite Hv' in Hfirst.
      * rewrite Hfn in Hfn'. by injection Hfn' as <-.
      * specialize (Hall k Hgt). simpl in Hall. congruence.
    + destruct Hout as (Hcount & Hall & _).
      specialize (Hall k ltac:(lia)). simpl in Hall. congruence.
    + destruct Hout as (m & Hm & Hfn' & Hall & _).
      destruct (lt_eq_lt_dec m k) as [[Hlt| ->]|Hgt].
      * specialize (Hfirst m Hlt). simpl in Hfirst. by rewrite Hfn' in Hfirst.
      * congruence.
      * specialize (Hall k Hgt). simpl in Hall. congruence.
  - intros Hnone. destruct out as [[v|]|reason].
    + destruct Hout as (Hv & m & Hm & Hfn' & _).
      specialize (Hnone m ltac:(lia)). simpl in Hnone.
      rewrite Hfn' in Hnone; simpl in Hnone. by rewrite Hv in Hnone.
    + by destruct Hout as (Hcount & _).
    + destruct Hout as (m & Hm & Hfn' & _).
      specialize (Hnone m ltac:(lia)). simpl in Hnone. by rewrite Hfn' in Hnone.
Qed.
End DevToolsPage_facts.

Lemma waitForFunctionWithTries_capped_witness :
  (0 ≤ 3)%Z
  ∧ (3 ≤ DevToolsPage.two_to_53)%Z
  ∧ (Z.to_nat 3 < 4)%nat
  ∧ ∃ w, DevToolsPage.waitForFunctionWithTries DevToolsPage_run.nonzero
           DevToolsPage_run.second_call_finds 4
           (Some {| DevToolsPage.tries := DevToolsPage.integer 3 |})
           DevToolsPage.start
         = Some (DevToolsPage.Returned (Some 7%Z), w)
         ∧ DevToolsPage.fnCalls w = 2%nat.
Proof.
  assert (0 ≤ 3)%Z as Hn by lia.
  assert (3 ≤ DevToolsPage.two_to_53)%Z as Hcap by (unfold DevToolsPage.two_to_53; lia).
  assert (Z.to_nat 3 < 4)%nat as Hfuel by (simpl; lia).
  split; [exact Hn|]. split; [exact Hcap|]. split; [exact Hfuel|].
  destruct (waitForFunctionWithTries_capped DevToolsPage_run.nonzero
              DevToolsPage_run.second_call_finds 3 4 Hn Hcap Hfuel)
    as (out & w & Hrun & _ & _ & Hfirst & _).
  destruct (Hfirst 1%nat 7%Z) as [-> Hcalls]; [lia | reflexivity | reflexivity | |].
  - intros [|j] Hj; [reflexivity | lia].
  - exists w. split; [exact Hrun | exact Hcalls].
Defined.

(** C5, as the specification words it, fails for a finite cap that is not
    an integer: with the cap 2.5 and a polled function that never finds
    anything, [fn] is called three times. *)
Lemma fractional_cap_is_exceeded :
  ¬ (∀ (cap : QArith_base.Q) (fuel : nat) out w,
       DevToolsPage.waitForFunctionWithTries (λ _ : unit, true)
         (λ _, DevToolsPage.Returned None) fuel
         (Some {| DevToolsPage.tries := DevToolsPage.Finite cap |}) DevToolsPage.start
       = Some (out, w) →
       QArith_base.Qle (QArith_base.inject_Z (Z.of_nat (DevToolsPage.fnCalls w))) cap).
Proof.
  intros Hclaim.
  specialize (Hclaim (QArith_base.Qmake 5 2) 4%nat (DevToolsPage.Returned None)
                {| DevToolsPage.fnCalls := 3;
                   DevToolsPage.log := DevToolsPage_run.attempts_log 3 false |}
                eq_refl).
  unfold QArith_base.Qle in Hclaim. simpl in Hclaim. lia.
Qed.

(** And for a cap above 2^53 the loop does not return when nothing is
    ever found: no fuel suffices. *)
Lemma cap_above_two_to_53_stalls (fuel : nat) :
  DevToolsPage.waitForFunctionWithTries (λ _ : unit, true)
    (λ _, DevToolsPage.Returned None) fuel
    (Some {| DevToolsPage.tries := DevToolsPage.integer (DevToolsPage.two_to_53 + 2) |})
    DevToolsPage.start
  = None.
Proof.
  unfold DevToolsPage.waitForFunctionWithTries, DevToolsPage.asyncScope_exec.
  apply poll_stalls; [done|]. unfold DevToolsPage.two_to_53. lia.
Qed.

(** * Further properties *)

(** ** Selection of a named bit-set filter *)

Section NamedBitSetFilterUI_selection.
Import NamedBitSetFilterUI NamedBitSetFilterUI_run NamedBitSetFilterUI_stored.
Implicit Types (s : t) (a : gset string).

Lemma new_stored_filter : new [foo; bar] (Some ∅) = Some stored_filter.
Proof. vm_compute. reflexivity. Qed.

Lemma reachable_stored_filter : reachable stored_filter.
Proof. eapply reachable_new, new_stored_filter. Qed.

Lemma reachable_foo_filter : reachable foo_filter.
Proof.
  eapply (reachable_run (TypeFilterClicked false (click false 1)));
    [apply reachable_fresh_filter|]. vm_compute. reflexivity.
Qed.

(** Two sets as [update] leaves them are equal when they agree on the
    names other than "all". *)
Lemma normal_sets_eq a b :
  a ≠ ∅ → (ALL_TYPES ∈ a → a = {[ALL_TYPES]}) →
  b ≠ ∅ → (ALL_TYPES ∈ b → b = {[ALL_TYPES]}) →
  (∀ k : string, k ≠ ALL_TYPES → k ∈ a ↔ k ∈ b) → a = b.
Proof.
  assert (∀ x y : gset string,
            y ≠ ∅ → (∀ k : string, k ≠ ALL_TYPES → k ∈ x ↔ k ∈ y) →
            x = {[ALL_TYPES]} → ALL_TYPES ∈ y) as Hall.
  { intros x y Hy Hagree ->. apply set_choose_L in Hy as [k Hk].
    destruct (decide (k = ALL_TYPES)) as [->|Hne]; [done|].
    apply Hagree in Hk; [|done]. apply elem_of_singleton in Hk. congruence. }
  intros Ha Hea Hb Heb Hagree. apply set_eq; intros k.
  destruct (decide (k = ALL_TYPES)) as [->|Hne]; [|by apply Hagree].
  split; intros Hin.
  - apply (Hall a b); auto.
  - apply (Hall b a); auto. intros k' Hk'. symmetry. by apply Hagree.
Qed.

(** Toggling a name other than "all" twice with the modifier gives the
    set back, for a set as [update] leaves it. *)
Lemma toggled_twice typeName a :
  typeName ≠ ALL_TYPES → a ≠ ∅ → (ALL_TYPES ∈ a → a = {[ALL_TYPES]}) →
  toggled typeName true (toggled typeName true a) = a.
Proof.
  intros Hne Hnonempty Hexcl.
  apply normal_sets_eq;
    [apply toggled_nonempty | apply toggled_exclusive | done | done |].
  intros k Hk.
  rewrite (elem_of_toggled_multi typeName (toggled typeName true a) k Hne Hk).
  destruct (decide (k = typeName)) as [->|Hkn].
  - rewrite (elem_of_toggled_multi typeName a typeName Hne Hk).
    rewrite decide_True by done. destruct (decide (typeName ∈ a)); tauto.
  - rewrite (elem_of_toggled_multi typeName a k Hne Hk). by rewrite decide_False by done.
Qed.

Lemma toggleTypeFilter_typeNames typeName allowMultiSelect s s' :
  toggleTypeFilter typeName allowMultiSelect s = Some s' → typeNames s' = typeNames s.
Proof.
  rewrite toggleTypeFilter_unfold; cbv zeta.
  destruct (setting s); intros [= <-]; by rewrite update_typeNames.
Qed.

Lemma settingChanged_typeNames s s' :
  settingChanged s = Some s' → typeNames s' = typeNames s.
Proof.
  unfold settingChanged. destruct (setting s); [|done].
  intros [= <-]. by rewrite update_typeNames.
Qed.

Lemma repaint_painted s :
  painted s →
  (λ el, set_selected (bool_decide (typeName el ∈ allowedTypes s)) el)
    <$> typeFilterElements s = typeFilterElements s.
Proof.
  intros Hpainted. rewrite <- (list_fmap_id (typeFilterElements s)) at 2.
  apply list_fmap_ext. intros i el Hel.
  rewrite <- (Hpainted el) by (by eapply list_elem_of_lookup_2).
  by destruct el.
Qed.

(** X1: on a filter that keeps no setting, or whose clicked bit has a
    non-empty type name while no bit is named like a member every object
    inherits, a click with the multi-select modifier on a bit other than
    "all" is undone by a second such click: the allowed types and the
    painting of the bits are as before, and two filter-changed events were
    fired. *)
Theorem modifier_click_twice isMac e i el s s1 s2 :
  reachable s →
  multiSelectModifier isMac e = true →
  target e = Some i →
  typeFilterElements s !! i = Some el →
  typeName el ≠ ALL_TYPES →
  setting s = None ∨ (typeName el ≠ "" ∧ plain_names s) →
  onTypeFilterClicked isMac e s = Some s1 →
  onTypeFilterClicked isMac e s1 = Some s2 →
  allowedTypes s2 = allowedTypes s
  ∧ typeFilterElements s2 = typeFilterElements s
  ∧ dispatched s2 = dispatched s ++ [FILTER_CHANGED; FILTER_CHANGED].
Proof.
  intros Hs Hmod Htarget Hel Hall Hcase Hclick1 Hclick2.
  pose proof (reachable_well_formed _ Hs) as Hwf.
  assert (typeName el ∈ typeNames s) as Hin.
  { unfold typeNames. apply list_elem_of_fmap. exists el. split; [done|].
    by eapply list_elem_of_lookup_2. }
  unfold onTypeFilterClicked in Hclick1. rewrite Htarget, Hel in Hclick1.
  fold (multiSelectModifier isMac e) in Hclick1. rewrite Hmod in Hclick1.
  pose proof (toggleTypeFilter_elements _ _ _ _ Hclick1) as Hels1.
  assert (allowedTypes s1 = toggled (typeName el) true (allowedTypes s)) as Hallowed1.
  { apply (toggleTypeFilter_plain _ _ _ _ Hwf); [|done].
    destruct Hcase as [?|[? ?]]; [by left|by right]. }
  assert (well_formed s1) as Hwf1
    by (eapply toggleTypeFilter_well_formed; [apply (wf_all_bit _ Hwf) | exact Hclick1]).
  assert (typeNames s1 = typeNames s) as Hnames1
    by (by eapply toggleTypeFilter_typeNames).
  assert (∃ el1, typeFilterElements s1 !! i = Some el1 ∧ typeName el1 = typeName el)
    as (el1 & Hel1 & Hname1).
  { rewrite Hels1, list_lookup_fmap, Hel. simpl. eauto. }
  unfold onTypeFilterClicked in Hclick2. rewrite Htarget, Hel1 in Hclick2.
  fold (multiSelectModifier isMac e) in Hclick2. rewrite Hmod, Hname1 in Hclick2.
  pose proof (toggleTypeFilter_elements _ _ _ _ Hclick2) as Hels2.
  assert (allowedTypes s2 = toggled (typeName el) true (allowedTypes s1)) as Hallowed2.
  { apply (toggleTypeFilter_plain _ _ _ _ Hwf1); [|done].
    destruct Hcase as [Hnone|[Hne Hplain]].
    - left. by eapply toggleTypeFilter_no_setting.
    - right. split_and!; [done|by rewrite Hnames1|].
      intros k Hk. apply Hplain. by rewrite <- Hnames1. }
  assert (allowedTypes s2 = allowedTypes s) as Hback.
  { rewrite Hallowed2, Hallowed1.
    apply toggled_twice; [done | apply (wf_nonempty _ Hwf) | apply (wf_exclusive _ Hwf)]. }
  split; [exact Hback|]. split.
  - rewrite Hels2, Hels1, <- list_fmap_compose, Hback.
    rewrite <- (repaint_painted s (wf_painted _ Hwf)) at 2.
    by apply list_fmap_ext.
  - rewrite (toggleTypeFilter_dispatched _ _ _ _ Hclick2).
    rewrite (toggleTypeFilter_dispatched _ _ _ _ Hclick1).
    by rewrite <- app_assoc.
Qed.

Lemma modifier_click_twice_witness :
  ∃ s1 s2,
    onTypeFilterClicked false (click true 1) fresh_filter = Some s1
    ∧ onTypeFilterClicked false (click true 1) s1 = Some s2
    ∧ allowedTypes s2 = allowedTypes fresh_filter
    ∧ typeFilterElements s2 = typeFilterElements fresh_filter
    ∧ dispatched s2 = dispatched fresh_filter ++ [FILTER_CHANGED; FILTER_CHANGED].
Proof.
  exists foo_filter,
         (dispatchEventToListeners FILTER_CHANGED
            (dispatchEventToListeners FILTER_CHANGED fresh_filter)).
  assert (onTypeFilterClicked false (click true 1) fresh_filter = Some foo_filter) as H1
    by (vm_compute; reflexivity).
  assert (onTypeFilterClicked false (click true 1) foo_filter
          = Some (dispatchEventToListeners FILTER_CHANGED
                    (dispatchEventToListeners FILTER_CHANGED fresh_filter))) as H2
    by (vm_compute; reflexivity).
  split; [exact H1|]. split; [exact H2|].
  refine (modifier_click_twice false (click true 1) 1
            {| typeName := "foo"; selected := false; tabIndex := -1 |}
            fresh_filter _ _ reachable_fresh_filter eq_refl eq_refl eq_refl _ _ H1 H2).
  - discriminate.
  - left. reflexivity.
Defined.

Lemma toggled_last typeName :
  typeName ≠ ALL_TYPES → toggled typeName true {[typeName]} = {[ALL_TYPES]}.
Proof.
  intros Hne. apply normal_sets_eq.
  - apply toggled_nonempty.
  - apply toggled_exclusive.
  - apply non_empty_singleton_L.
  - done.
  - intros k Hk. rewrite (elem_of_toggled_multi typeName {[typeName]} k Hne Hk).
    destruct (decide (k = typeName)) as [->|Hkn]; set_solver.
Qed.

(** X2: when the only selected bit is clicked with the multi-select
    modifier, the selection does not become empty: it falls back to
    "all", the filter is inactive and accepts every type name. *)
Theorem deselecting_last_bit_selects_all isMac e i el s :
  reachable s →
  multiSelectModifier isMac e = true →
  target e = Some i →
  typeFilterElements s !! i = Some el →
  typeName el ≠ ALL_TYPES →
  typeName el ≠ "" →
  allowedTypes s = {[typeName el]} →
  ∃ s', onTypeFilterClicked isMac e s = Some s'
        ∧ allowedTypes s' = {[ALL_TYPES]}
        ∧ isActive s' = false
        ∧ ∀ typeName, accept typeName s' = true.
Proof.
  intros Hs Hmod Htarget Hel Hall Hne Honly.
  pose proof (reachable_well_formed _ Hs) as Hwf.
  assert (typeName el ∈ typeNames s) as Hin.
  { unfold typeNames. apply list_elem_of_fmap. exists el. split; [done|].
    by eapply list_elem_of_lookup_2. }
  destruct (toggleTypeFilter_total (typeName el) true s) as [s' Hrun].
  assert (allowedTypes s' = {[ALL_TYPES]}) as Hallowed.
  { apply (toggleTypeFilter_allowedTypes (typeName el) true s s' Hwf);
      [by right|done|]. rewrite Honly. by apply toggled_last. }
  exists s'. unfold onTypeFilterClicked. rewrite Htarget, Hel.
  fold (multiSelectModifier isMac e). rewrite Hmod.
  split; [exact Hrun|]. split; [exact Hallowed|].
  assert (bool_decide (ALL_TYPES ∈ allowedTypes s') = true) as Hdec
    by (rewrite Hallowed; apply bool_decide_eq_true, elem_of_singleton; done).
  unfold isActive, accept. rewrite Hdec. done.
Qed.

Lemma deselecting_last_bit_selects_all_witness :
  ∃ s', onTypeFilterClicked false (click true 1) foo_filter = Some s'
        ∧ allowedTypes s' = {[ALL_TYPES]}
        ∧ isActive s' = false
        ∧ ∀ typeName, accept typeName s' = true.
Proof.
  refine (deselecting_last_bit_selects_all false (click true 1) 1
            {| typeName := "foo"; selected := true; tabIndex := -1 |}
            foo_filter reachable_foo_filter eq_refl eq_refl eq_refl _ _ eq_refl);
    discriminate.
Defined.

(** *** Bits and predicate *)

Lemma run_typeNames op s s' : run op s = Some s' → typeNames s' = typeNames s.
Proof.
  destruct op as [n m| | |value|isMac e]; simpl.
  - apply toggleTypeFilter_typeNames.
  - apply toggleTypeFilter_typeNames.
  - apply settingChanged_typeNames.
  - destruct (setting s); [|done]. intros Hset.
    by apply settingChanged_typeNames in Hset.
  - unfold onTypeFilterClicked. destruct (target e) as [i|]; [|by intros [= <-]].
    destruct (typeFilterElements s !! i); [|done]. apply toggleTypeFilter_typeNames.
Qed.

Lemma new_typeNames items setting s :
  new items setting = Some s → typeNames s = ALL_TYPES :: (name <$> items).
Proof.
  unfold new. set (s3 := foldl _ _ items).
  assert (typeNames s3 = ALL_TYPES :: (name <$> items)) as Hnames
    by (unfold s3; by rewrite foldl_addBit_typeNames).
  destruct setting as [value|]; intros Hnew.
  - apply settingChanged_typeNames in Hnew. rewrite Hnew. exact Hnames.
  - apply toggleTypeFilter_typeNames in Hnew. rewrite Hnew. exact Hnames.
Qed.

Lemma reachable_first_bit s : reachable s → typeNames s !! 0%nat = Some ALL_TYPES.
Proof.
  induction 1 as [items setting s Hnew | op s s' _ IH Hrun].
  - by rewrite (new_typeNames _ _ _ Hnew).
  - by rewrite (run_typeNames _ _ _ Hrun).
Qed.

(** X4: in every state the filter can be in, the first bit is the "all"
    bit, it is painted selected exactly when the filter is not active, and
    [accept] holds of the type name of a bit exactly when that bit or the
    "all" bit is painted selected. *)
Theorem accept_matches_painted_bits s :
  reachable s →
  ∃ all_bit,
    typeFilterElements s !! 0%nat = Some all_bit
    ∧ typeName all_bit = ALL_TYPES
    ∧ selected all_bit = negb (isActive s)
    ∧ ∀ i el, typeFilterElements s !! i = Some el →
              accept (typeName el) s = selected all_bit || selected el.
Proof.
  intros Hs. pose proof (reachable_well_formed _ Hs) as Hwf.
  pose proof (reachable_first_bit _ Hs) as Hfirst.
  unfold typeNames in Hfirst. rewrite list_lookup_fmap in Hfirst.
  destruct (typeFilterElements s !! 0%nat) as [all_bit|] eqn:Hall; [|done].
  injection Hfirst as Hname. exists all_bit. split; [done|]. split; [done|].
  assert (selected all_bit = bool_decide (ALL_TYPES ∈ allowedTypes s)) as Hsel.
  { rewrite <- Hname. apply (wf_painted _ Hwf). by eapply list_elem_of_lookup_2. }
  split.
  - unfold isActive. rewrite Hsel. by rewrite negb_involutive.
  - intros i el Hel. unfold accept. rewrite Hsel. f_equal.
    symmetry. apply (wf_painted _ Hwf). by eapply list_elem_of_lookup_2.
Qed.

Lemma accept_matches_painted_bits_witness :
  ∃ all_bit,
    typeFilterElements foo_filter !! 0%nat = Some all_bit
    ∧ typeName all_bit = ALL_TYPES
    ∧ selected all_bit = negb (isActive foo_filter)
    ∧ ∀ i el, typeFilterElements foo_filter !! i = Some el →
              accept (typeName el) foo_filter = selected all_bit || selected el.
Proof. exact (accept_matches_painted_bits foo_filter reachable_foo_filter). Defined.

(** *** The selection and the setting *)

Lemma elem_of_normalised a (k : string) :
  k ∈ normalised a ↔
  (k = ALL_TYPES ∧ (a = ∅ ∨ ALL_TYPES ∈ a)) ∨ (k ∈ a ∧ ALL_TYPES ∉ a).
Proof.
  unfold normalised. case_bool_decide as Hsz; cbn [orb].
  - apply size_zero_empty in Hsz. subst a. rewrite elem_of_singleton.
    split; [intros ->; auto|]. intros [[-> _]|[Hin _]]; [done|].
    by apply not_elem_of_empty in Hin.
  - rewrite size_zero_empty in Hsz. case_bool_decide as Hall.
    + rewrite elem_of_singleton. split; [intros ->; auto|].
      intros [[-> _]|[_ Hnot]]; [done|contradiction].
    + split; [auto|]. intros [[_ [Hempty|Hin]]|[Hin _]]; [contradiction..|done].
Qed.

(** X5: how a stored record is read.  A record marks a name when the name
    reads truthy in it ([record_truthy]): the record owns the key with the
    value true, or it does not own the key and the name is that of a member
    every object inherits.  After the setting of a filter was set to any
    record, "all" is selected when the record marks "all" or marks no bit
    with a non-empty type name; otherwise exactly the bits with a non-empty
    type name that the record marks are selected.  Keys that are not type
    names of bits are ignored. *)
Theorem stored_record_is_read s (value : gmap string bool) :
  reachable s →
  is_Some (setting s) →
  ∃ s', Setting_set value s = Some s'
        ∧ setting s' = Some value
        ∧ (ALL_TYPES ∈ allowedTypes s' ↔
           record_truthy value ALL_TYPES = true
           ∨ ∀ k : string, k ∈ typeNames s → k ≠ "" → record_truthy value k = false)
        ∧ ∀ k : string,
            k ≠ ALL_TYPES →
            (k ∈ allowedTypes s' ↔
             record_truthy value ALL_TYPES = false
             ∧ record_truthy value k = true ∧ k ≠ "" ∧ k ∈ typeNames s).
Proof.
  intros Hs _. pose proof (wf_all_bit _ (reachable_well_formed _ Hs)) as Hall.
  unfold Setting_set, settingChanged; simpl. eexists. split; [reflexivity|].
  split; [done|]. rewrite update_allowedTypes; simpl.
  set (X := allowedTypesFrom value (typeFilterElements s)).
  assert (∀ k : string, k ∈ X ↔ k ≠ "" ∧ record_truthy value k = true ∧ k ∈ typeNames s)
    as HX by (intros k; apply elem_of_allowedTypesFrom).
  assert (ALL_TYPES ∈ X ↔ record_truthy value ALL_TYPES = true) as HallX.
  { rewrite HX. split; [tauto|]. intros Hv. split_and!; done. }
  split.
  - rewrite elem_of_normalised. split.
    + intros [[_ [Hempty|Hin]]|[Hin Hnot]].
      * right. intros k Hk Hne. destruct (record_truthy value k) eqn:Hv; [|done].
        assert (k ∈ X) as Hin by (by apply HX). rewrite Hempty in Hin.
        by apply not_elem_of_empty in Hin.
      * left. by apply HallX.
      * contradiction.
    + intros [Hv|Hnone]; left; (split; [done|]).
      * right. by apply HallX.
      * left. apply set_eq. intros k. rewrite HX. split.
        -- intros (Hne & Hv & Hk). rewrite (Hnone k Hk Hne) in Hv. done.
        -- intros Hin. by apply not_elem_of_empty in Hin.
  - intros k Hk. rewrite elem_of_normalised, (HX k).
    split.
    + intros [[-> _]|[(Hne & Hv & Hin) Hnot]]; [done|].
      split_and!; try done. destruct (record_truthy value ALL_TYPES) eqn:Hva; [|done].
      destruct Hnot. by apply HallX.
    + intros (Hva & Hv & Hne & Hin). right. split; [done|].
      rewrite HallX, Hva. done.
Qed.

Lemma stored_record_is_read_witness :
  ∃ s', Setting_set {["bar" := true]} stored_filter = Some s'
        ∧ setting s' = Some {["bar" := true]}
        ∧ ("bar" ∈ allowedTypes s' ↔
           record_truthy {["bar" := true]} ALL_TYPES = false
           ∧ record_truthy {["bar" := true]} "bar" = true
           ∧ "bar" ≠ "" ∧ "bar" ∈ typeNames stored_filter).
Proof.
  destruct (stored_record_is_read stored_filter {["bar" := true]} reachable_stored_filter
              (mk_is_Some _ _ eq_refl))
    as (s' & Hset & Hstored & _ & Hbits).
  exists s'. split; [exact Hset|]. split; [exact Hstored|].
  apply Hbits. discriminate.
Defined.

Lemma allowedTypesFrom_names value (els1 els2 : list TypeFilterElement) :
  typeName <$> els1 = typeName <$> els2 →
  allowedTypesFrom value els1 = allowedTypesFrom value els2.
Proof.
  intros Hnames. apply set_eq. intros k.
  by rewrite !elem_of_allowedTypesFrom, Hnames.
Qed.

(** X3: the selection survives a restart.  When a bit with a non-empty
    type name is clicked on a filter that keeps its selection in a
    setting, a new filter built from the same items and the record that
    the click stored has the same allowed types and paints the same bits
    selected. *)
Theorem selection_survives_restart isMac e i el items s s' :
  reachable s →
  is_Some (setting s) →
  typeNames s = ALL_TYPES :: (name <$> items) →
  target e = Some i →
  typeFilterElements s !! i = Some el →
  typeName el ≠ "" →
  onTypeFilterClicked isMac e s = Some s' →
  ∃ stored restarted,
    setting s' = Some stored
    ∧ new items (Some stored) = Some restarted
    ∧ allowedTypes restarted = allowedTypes s'
    ∧ selected <$> typeFilterElements restarted = selected <$> typeFilterElements s'.
Proof.
  intros Hs [old Hold] Hnames Htarget Hel Hne Hclick.
  unfold onTypeFilterClicked in Hclick. rewrite Htarget, Hel in Hclick.
  fold (multiSelectModifier isMac e) in Hclick.
  set (m := multiSelectModifier isMac e) in *.
  rewrite toggleTypeFilter_unfold in Hclick; cbv zeta in Hclick.
  set (a := toggled (typeName el) m (allowedTypes s)) in *.
  rewrite Hold in Hclick. injection Hclick as <-.
  destruct (new_total items (Some (updatedSetting a))) as [restarted Hnew].
  exists (updatedSetting a), restarted. split; [done|]. split; [exact Hnew|].
  unfold new in Hnew. set (s3 := foldl _ _ items) in Hnew.
  unfold settingChanged in Hnew; simpl in Hnew. injection Hnew as <-.
  assert (typeNames s3 = typeNames s) as Hsame.
  { rewrite Hnames. unfold s3. by rewrite foldl_addBit_typeNames. }
  assert (allowedTypesFrom (updatedSetting a) (typeFilterElements s3)
          = allowedTypesFrom (updatedSetting a) (typeFilterElements s)) as Hread
    by (by apply allowedTypesFrom_names).
  split.
  - rewrite !update_allowedTypes; simpl. by rewrite Hread.
  - rewrite !update_elements; simpl. rewrite Hread.
    set (X := normalised (allowedTypesFrom (updatedSetting a) (typeFilterElements s))).
    rewrite <- !list_fmap_compose.
    transitivity ((λ n : string, bool_decide (n ∈ X)) <$> typeNames s3).
    + unfold typeNames. rewrite <- list_fmap_compose. by apply list_fmap_ext.
    + rewrite Hsame. unfold typeNames. rewrite <- list_fmap_compose.
      by apply list_fmap_ext.
Qed.

Lemma selection_survives_restart_witness :
  onTypeFilterClicked false (click false 1) stored_filter = Some stored_foo_filter
  ∧ ∃ stored restarted,
      setting stored_foo_filter = Some stored
      ∧ new [foo; bar] (Some stored) = Some restarted
      ∧ allowedTypes restarted = allowedTypes stored_foo_filter
      ∧ selected <$> typeFilterElements restarted
        = selected <$> typeFilterElements stored_foo_filter.
Proof.
  assert (onTypeFilterClicked false (click false 1) stored_filter = Some stored_foo_filter)
    as Hclick by (vm_compute; reflexivity).
  split; [exact Hclick|].
  refine (selection_survives_restart false (click false 1) 1
            {| typeName := "foo"; selected := false; tabIndex := -1 |}
            [foo; bar] stored_filter stored_foo_filter
            reachable_stored_filter _ eq_refl eq_refl eq_refl _ Hclick).
  - by eexists.
  - discriminate.
Defined.
End NamedBitSetFilterUI_selection.

(** ** Keyboard navigation between the bits *)

Section NamedBitSetFilterUI_navigation.
Import NamedBitSetFilterUI NamedBitSetFilterUI_run NamedBitSetFilterUI_keys.
Import NamedBitSetFilterUI_stored.
Implicit Types (s : t).

Lemma fmap_alter_keep {A B : Type} (g : A → B) (f : A → A) (l : list A) (i : nat) :
  (∀ x, g (f x) = g x) → g <$> alter f i l = g <$> l.
Proof.
  intros Hfg. apply list_eq. intros j. rewrite !list_lookup_fmap.
  destruct (decide (i = j)) as [->|Hne].
  - rewrite list_lookup_alter_eq. destruct (l !! j); simpl; by rewrite ?Hfg.
  - by rewrite list_lookup_alter_ne.
Qed.

Lemma keyFocusNextBit_frame target selectPrevious s :
  allowedTypes (after (keyFocusNextBit target selectPrevious s)) = allowedTypes s
  ∧ setting (after (keyFocusNextBit target selectPrevious s)) = setting s
  ∧ dispatched (after (keyFocusNextBit target selectPrevious s)) = dispatched s
  ∧ typeName <$> typeFilterElements (after (keyFocusNextBit target selectPrevious s))
    = typeName <$> typeFilterElements s
  ∧ selected <$> typeFilterElements (after (keyFocusNextBit target selectPrevious s))
    = selected <$> typeFilterElements s
  ∧ (returned (keyFocusNextBit target selectPrevious s) = true
     ↔ is_Some (focused (keyFocusNextBit target selectPrevious s))).
Proof.
  unfold keyFocusNextBit. cbv zeta.
  destruct (_ || _); simpl.
  { by split_and!. }
  split_and!; try done.
  - by rewrite !fmap_alter_keep.
  - by rewrite !fmap_alter_keep.
Qed.

(** X6: the arrow keys and Tab only move the focus.  A keydown event with
    one of these keys leaves the allowed types, the setting, the names and
    the painting of the bits as they are and fires no event; it is consumed
    exactly when the focus moved. *)
Theorem navigation_keeps_selection isEnterOrSpaceKey isMac event s :
  navigates event = true →
  ∃ h, onTypeFilterKeydown isEnterOrSpaceKey isMac event s = Some h
       ∧ allowedTypes (filter h) = allowedTypes s
       ∧ setting (filter h) = setting s
       ∧ dispatched (filter h) = dispatched s
       ∧ typeName <$> typeFilterElements (filter h) = typeName <$> typeFilterElements s
       ∧ selected <$> typeFilterElements (filter h) = selected <$> typeFilterElements s
       ∧ (consumed h = true ↔ is_Some (focus h)).
Proof.
  unfold navigates. rewrite bool_decide_eq_true. intros Hkey.
  unfold onTypeFilterKeydown.
  destruct (target (keyboard event)) as [element|].
  - assert (∀ prev, ∃ h,
              Some {| consumed := returned (keyFocusNextBit element prev s);
                      focus := focused (keyFocusNextBit element prev s);
                      filter := after (keyFocusNextBit element prev s) |} = Some h
              ∧ allowedTypes (filter h) = allowedTypes s
              ∧ setting (filter h) = setting s
              ∧ dispatched (filter h) = dispatched s
              ∧ typeName <$> typeFilterElements (filter h) = typeName <$> typeFilterElements s
              ∧ selected <$> typeFilterElements (filter h) = selected <$> typeFilterElements s
              ∧ (consumed h = true ↔ is_Some (focus h))) as Hmove.
    { intros prev. eexists. split; [reflexivity|]. simpl.
      apply keyFocusNextBit_frame. }
    destruct event as [k kb]; simpl in *.
    repeat (apply elem_of_cons in Hkey as [->|Hkey]);
      try (by apply elem_of_nil in Hkey);
      destruct (shiftKey kb);
      repeat match goal with
             | |- context [bool_decide (?a = ?b)] =>
                 first [ rewrite (bool_decide_eq_true_2 (a = b)) by reflexivity
                       | rewrite (bool_decide_eq_false_2 (a = b)) by discriminate ]
             end;
      cbn [orb andb negb]; apply Hmove.
  - eexists. split; [reflexivity|]. simpl. by split_and!.
Qed.

Lemma navigation_keeps_selection_witness :
  navigates {| key := "ArrowRight"; keyboard := click false 0 |} = true
  ∧ ∃ h, onTypeFilterKeydown (λ _, false) false
           {| key := "ArrowRight"; keyboard := click false 0 |} foo_filter = Some h
         ∧ allowedTypes (filter h) = allowedTypes foo_filter
         ∧ focus h = Some 1%nat.
Proof.
  split; [reflexivity|].
  destruct (navigation_keeps_selection (λ _, false) false
              {| key := "ArrowRight"; keyboard := click false 0 |} foo_filter eq_refl)
    as (h & Hrun & Hallowed & _).
  exists h. split; [exact Hrun|]. split; [exact Hallowed|].
  vm_compute in Hrun. by injection Hrun as <-.
Defined.

(** X7: from a bit of the filter, [keyFocusNextBit] moves the focus by one
    position and stops at the ends: it returns false, and changes nothing,
    exactly when there is no bit on that side.  When the bit it was called
    for was the only tab stop, the bit that got the focus is the only tab
    stop afterwards. *)
Theorem focus_moves_to_neighbour target selectPrevious s :
  (target < length (typeFilterElements s))%nat →
  (returned (keyFocusNextBit target selectPrevious s) = true
   ↔ if selectPrevious then (0 < target)%nat
     else (S target < length (typeFilterElements s))%nat)
  ∧ (returned (keyFocusNextBit target selectPrevious s) = false →
     after (keyFocusNextBit target selectPrevious s) = s
     ∧ focused (keyFocusNextBit target selectPrevious s) = None)
  ∧ (returned (keyFocusNextBit target selectPrevious s) = true →
     focused (keyFocusNextBit target selectPrevious s)
     = Some (if selectPrevious then target - 1 else target + 1)%nat
     ∧ (only_tab_stop target s →
        only_tab_stop (if selectPrevious then target - 1 else target + 1)%nat
          (after (keyFocusNextBit target selectPrevious s)))).
Proof.
  intros Hlt. unfold keyFocusNextBit, indexOf.
  rewrite (proj2 (Nat.ltb_lt _ _) Hlt). cbv zeta.
  assert ((Z.of_nat target =? -1)%Z = false) as -> by (apply Z.eqb_neq; lia).
  set (next := (if selectPrevious then Z.of_nat target - 1 else Z.of_nat target + 1)%Z).
  assert (Z.to_nat next = (if selectPrevious then target - 1 else target + 1)%nat
          ∨ (next < 0)%Z) as Hnext
    by (unfold next; destruct selectPrevious; lia).
  destruct (Z.ltb_spec next 0) as [Hneg|Hpos]; cbn [orb].
  { simpl. split_and!; try done. split; [done|].
    unfold next in Hneg. destruct selectPrevious; lia. }
  destruct (Z.leb_spec (Z.of_nat (length (typeFilterElements s))) next) as [Hout|Hin];
    simpl.
  { split_and!; try done. split; [done|].
    unfold next in Hout. destruct selectPrevious; lia. }
  destruct Hnext as [Hnext|?]; [|lia]. rewrite Hnext.
  set (n := (if selectPrevious then target - 1 else target + 1)%nat) in *.
  assert (n ≠ target) as Hne by (unfold n, next in *; destruct selectPrevious; lia).
  split_and!; try done.
  - split; [|done]. intros _. unfold next in *. destruct selectPrevious; lia.
  - intros _. split; [done|]. intros Honly j el. simpl.
    destruct (decide (j = target)) as [->|Hjt].
    + rewrite list_lookup_alter_eq, list_lookup_alter_ne by done.
      destruct (typeFilterElements s !! target) as [el0|]; [|done].
      simpl. intros [= <-]. simpl. split; [done|]. intros Heq. congruence.
    + rewrite list_lookup_alter_ne by done.
      destruct (decide (j = n)) as [->|Hjn].
      * rewrite list_lookup_alter_eq.
        destruct (typeFilterElements s !! n) as [el0|]; [|done].
        simpl. intros [= <-]. done.
      * rewrite list_lookup_alter_ne by done. intros Hel.
        rewrite (Honly j el Hel). split; intros; congruence.
Qed.

Lemma focus_moves_to_neighbour_witness :
  (0 < length (typeFilterElements foo_filter))%nat
  ∧ only_tab_stop 0 foo_filter
  ∧ returned (keyFocusNextBit 0 true foo_filter) = false
  ∧ focused (keyFocusNextBit 0 false foo_filter) = Some 1%nat
  ∧ only_tab_stop 1 (after (keyFocusNextBit 0 false foo_filter)).
Proof.
  assert (0 < length (typeFilterElements foo_filter))%nat as Hlt by (simpl; lia).
  assert (only_tab_stop 0 foo_filter) as Honly.
  { intros [|[|[|j]]] el; simpl; intros [= <-]; simpl; split; (lia || discriminate). }
  split; [exact Hlt|]. split; [exact Honly|]. split; [reflexivity|].
  destruct (focus_moves_to_neighbour 0 false foo_filter Hlt) as (_ & _ & Hmoved).
  destruct (Hmoved eq_refl) as [Hfocused Hstop].
  exact (conj Hfocused (Hstop Honly)).
Defined.
End NamedBitSetFilterUI_navigation.

(** ** The filter bar and its button *)

Section FilterBar_button.
Import FilterBar FilterBar_run.
Context {Filter : Type} `{FilterUI Filter}.
Implicit Types (σ : @Store Filter) (b : FilterBar.t) (w : @World Filter).

Lemma hasActiveFilterIn_ext σ σ' (fs : list nat) :
  (∀ f, f ∈ fs → σ' f = σ f) → hasActiveFilterIn σ' fs = hasActiveFilterIn σ fs.
Proof.
  induction fs as [|f fs IH]; intros Hsame; simpl; [done|].
  rewrite (Hsame f) by apply list_elem_of_here.
  rewrite IH; [done|]. intros g Hg. apply Hsame. by apply list_elem_of_further.
Qed.

(** Every filter of the bar has its listener registered. *)
Definition listening b : Prop := ∀ f, f ∈ filters b → f ∈ registered b.

Lemma registrations_pos filter b :
  filter ∈ registered b → registrations filter b ≠ 0%nat.
Proof.
  unfold registrations. induction (registered b) as [|l ls IH]; intros Hin.
  - by apply elem_of_nil in Hin.
  - simpl. apply elem_of_cons in Hin as [->|Hin].
    + by rewrite bool_decide_eq_true_2 by done.
    + destruct (bool_decide (l = filter)); simpl; auto.
Qed.

Lemma run_in_sync op w :
  listening (bar w) →
  filterButtonChecked (bar w) = hasActiveFilter (store w) (bar w) →
  listening (bar (run op w))
  ∧ filterButtonChecked (bar (run op w)) = hasActiveFilter (store (run op w)) (bar (run op w)).
Proof.
  intros Hlisten Hsync. unfold listening in *.
  destruct op as [f| |e|f state]; simpl.
  - split; [|done]. intros g. rewrite !elem_of_app. intros [Hg|Hg]; [left; auto | by right].
  - split; [|done]. intros g Hg. by apply elem_of_nil in Hg.
  - done.
  - unfold fire_FILTER_CHANGED.
    destruct (notify_listeners (put f state (store w)) f (registered (bar w)) (bar w))
      as (_ & Hf & Hr & Hc).
    fold (registrations f (bar w)) in Hc.
    split; [intros g; rewrite Hf, Hr; apply Hlisten|].
    rewrite Hc. unfold hasActiveFilter. rewrite Hf.
    destruct (decide (registrations f (bar w) = 0%nat)) as [Hzero|Hpos]; [|done].
    rewrite Hsync. unfold hasActiveFilter. symmetry. apply hasActiveFilterIn_ext.
    intros g Hg. unfold put. destruct (decide (g = f)) as [->|Hne]; [|done].
    destruct (registrations_pos f (bar w) (Hlisten f Hg) Hzero).
Qed.

(** X8: the filter button stays in step with the filters.  Starting from a
    new bar, after any sequence of addFilter, clear, setEnabled and of
    filters that change and fire FILTER_CHANGED, the button is checked
    exactly when some filter of the bar is active. *)
Theorem filter_button_in_sync σ name visibleByDefault (ops : list Operation) :
  filterButtonChecked (bar (runs ops {| store := σ; bar := new name visibleByDefault |}))
  = hasActiveFilter (store (runs ops {| store := σ; bar := new name visibleByDefault |}))
                    (bar (runs ops {| store := σ; bar := new name visibleByDefault |})).
Proof.
  assert (∀ w, listening (bar w) →
               filterButtonChecked (bar w) = hasActiveFilter (store w) (bar w) →
               filterButtonChecked (bar (runs ops w))
               = hasActiveFilter (store (runs ops w)) (bar (runs ops w))) as Hgen.
  { unfold runs. induction ops as [|op ops IH]; intros w Hlisten Hsync; [done|].
    simpl. destruct (run_in_sync op w Hlisten Hsync) as [Hlisten' Hsync']. by apply IH. }
  apply Hgen; [|done]. intros f Hf. by apply elem_of_nil in Hf.
Qed.

(** X9: [clear] empties the bar but leaves its listeners on the filters.
    A filter that was added and then cleared away still makes the bar
    dispatch CHANGED when it fires, once per earlier addFilter, and the
    button is unchecked afterwards whatever the state of that filter. *)
Theorem cleared_filter_still_heard σ b filter :
  dispatched (fire_FILTER_CHANGED filter σ (clear σ b))
  = dispatched b ++ replicate (registrations filter b) CHANGED
  ∧ filters (fire_FILTER_CHANGED filter σ (clear σ b)) = []
  ∧ filterButtonChecked (fire_FILTER_CHANGED filter σ (clear σ b)) = false.
Proof.
  unfold fire_FILTER_CHANGED.
  destruct (notify_listeners σ filter (registered (clear σ b)) (clear σ b))
    as (Hd & Hf & _ & Hc).
  split; [exact Hd|]. split; [exact Hf|].
  rewrite Hc. by destruct (decide _).
Qed.
End FilterBar_button.

(** ** What the INP breakdown renders *)

Section INPBreakdown_rendering.
Import INPBreakdown.
Context {Micro : Type} (add : Micro → Micro → Micro).
Context {EventFields ModelFields TraceWindowMicro : Type}.
Variable window_max : TraceWindowMicro → Micro.
Variable traceWindowFromMicroSeconds : Micro → Micro → TraceWindowMicro.
Variable i18nString : UIString → string.
Variable time : Micro → string.

Local Abbreviation Component := (@INPBreakdown.t Micro EventFields ModelFields).
Local Abbreviation rendered this :=
  (fst (renderContent (ModelFields := ModelFields)
          add window_max traceWindowFromMicroSeconds i18nString time this)).
Local Abbreviation overlaid this :=
  (fst (createOverlays (ModelFields := ModelFields)
          add window_max traceWindowFromMicroSeconds i18nString this)).

(** X10: the three methods agree.  Without an interaction event the
    component renders the "no interactions" text, creates no overlay and
    offers no AI support.  With one it renders a table of three rows; each
    row carries one overlay with one section, labelled as the row and
    attached to the event, and the sections of the rows, in order, are the
    sections of the overlay that createOverlays returns. *)
Theorem rows_match_overlay (this : Component) :
  match rendered this with
  | InsightSectionText text =>
      text = i18nString noInteractions
      ∧ overlaid this = []
      ∧ fst (hasAskAiSupport this) = false
  | InsightSectionTable headers rows =>
      fst (hasAskAiSupport this) = true
      ∧ length rows = 3%nat
      ∧ (rows ≫= λ row, overlays row ≫= sections) = (overlaid this ≫= sections)
      ∧ ∀ row, row ∈ rows →
          ∃ overlay section,
            overlays row = [overlay]
            ∧ sections overlay = [Some section]
            ∧ head (values row) = Some (label section)
            ∧ Some (entry overlay) = model this ≫= longestInteractionEvent
  end.
Proof.
  unfold renderContent, createOverlays, hasAskAiSupport, bind, this_model, ret.
  destruct this as [[[[event|] rest]|]]; simpl; try done.
  split; [done|]. split; [done|]. split; [done|].
  intros row Hrow.
  repeat (apply elem_of_cons in Hrow as [->|Hrow]);
    try (by apply elem_of_nil in Hrow);
    (eexists _, _; split; [reflexivity|]; done).
Qed.
End INPBreakdown_rendering.

(** ** Selectors and element queries of the page helper *)

Section DevToolsPage_selector_facts.
Import DevToolsPage_selectors.

Lemma startsWith_cut (prefix s : string) :
  startsWith s prefix = true →
  (prefix ++ substring_from (String.length prefix) s)%string = s.
Proof.
  unfold startsWith. revert s. induction prefix as [|c prefix IH]; intros s; simpl.
  - done.
  - destruct s as [|d s]; [done|]. simpl.
    destruct (Ascii.ascii_dec c d) as [->|]; [|done].
    intros Hprefix.
    change (String d (prefix ++ substring_from (String.length prefix) s)%string = String d s).
    f_equal. exact (IH s Hprefix).
Qed.

Lemma append_assoc_string (a b c : string) :
  ((a ++ b) ++ c)%string = (a ++ b ++ c)%string.
Proof.
  induction a as [|x a IH]; [done|].
  change (String x ((a ++ b) ++ c) = String x (a ++ b ++ c))%string. by rewrite IH.
Qed.

Lemma prefix_append (p r : string) : String.prefix p (p ++ r)%string = true.
Proof.
  induction p as [|c p IH]; [by destruct r|].
  change (String.prefix (String c p) (String c (p ++ r)) = true)%string.
  simpl. by destruct (Ascii.ascii_dec c c).
Qed.

Lemma substring_from_append (p r : string) :
  substring_from (String.length p) (p ++ r)%string = r.
Proof. induction p as [|c p IH]; [done | exact IH]. Qed.

Lemma startsWith_handler (handler rest : string) :
  startsWith (handler ++ "/" ++ rest)%string (handler ++ "/")%string = true.
Proof. unfold startsWith. rewrite <- append_assoc_string. apply prefix_append. Qed.

Lemma substring_from_handler (handler rest : string) :
  substring_from (String.length (handler ++ "/")%string) (handler ++ "/" ++ rest)%string
  = rest.
Proof. rewrite <- append_assoc_string. apply substring_from_append. Qed.

(** X11: a selector written as handler, slash, rest is split into that
    handler and that rest, for each of the five handlers and whatever the
    rest is (also when the rest itself begins like a handler prefix). *)
Theorem prefixed_selector_is_split (handler rest : string) :
  handler ∈ queryHandlers →
  splitSelector (handler ++ "/" ++ rest)%string = (handler, rest).
Proof.
  unfold queryHandlers. intros Hin.
  repeat (apply elem_of_cons in Hin as [->|Hin]);
    try (by apply elem_of_nil in Hin);
    unfold splitSelector, queryHandlers; cbn [chooseHandler];
    repeat first
      [ rewrite startsWith_handler, substring_from_handler
      | match goal with
        | |- context [startsWith ?s ?p] => change (startsWith s p) with false; cbv iota
        end ];
    reflexivity.
Qed.

Lemma prefixed_selector_is_split_witness :
  "aria" ∈ queryHandlers
  ∧ splitSelector "aria/text/More tabs" = ("aria", "text/More tabs").
Proof.
  assert ("aria" ∈ queryHandlers) as Hin
    by (unfold queryHandlers; do 2 apply list_elem_of_further; apply list_elem_of_here).
  split; [exact Hin|].
  exact (prefixed_selector_is_split "aria" "text/More tabs" Hin).
Defined.

(** X12: the page is queried with the selector as it was written when it
    starts with the prefix of a known handler, and with "pierce/" put in
    front of it otherwise. *)
Theorem query_keeps_selector (selector : string) :
  queryFor selector
  = if existsb (λ handler, startsWith selector (handler ++ "/")%string) queryHandlers
    then selector
    else ("pierce/" ++ selector)%string.
Proof.
  unfold queryFor, splitSelector, queryHandlers, queryText. cbn [chooseHandler existsb].
  repeat match goal with
         | |- context [startsWith selector ?p] =>
             let H := fresh "Hp" in
             destruct (startsWith selector p) eqn:H; cbn [orb fst snd];
             [ apply startsWith_cut in H; rewrite <- H at 2; reflexivity | clear H ]
         end.
  reflexivity.
Qed.
End DevToolsPage_selector_facts.

Section DevToolsPage_element_facts.
Import DevToolsPage DevToolsPage_run.

(** X13: [waitForWithTries] with an integer cap [n] between 0 and 2^53
    queries the page at most [n] times; it returns the first element a
    query finds, and [undefined] after exactly [n] queries when none of
    them finds one. *)
Theorem waitForWithTries_capped {ElementHandle : Type}
    (query : nat → option ElementHandle) (n : Z) (fuel : nat) :
  (0 ≤ n)%Z →
  (n ≤ two_to_53)%Z →
  (Z.to_nat n < fuel)%nat →
  ∃ found w,
    waitForWithTries query fuel (Some {| tries := integer n |}) start
    = Some (Returned found, w)
    ∧ (Z.of_nat (fnCalls w) ≤ n)%Z
    ∧ match found with
      | Some element =>
          ∃ k, fnCalls w = S k ∧ query k = Some element
               ∧ ∀ j, (j < k)%nat → query j = None
      | None =>
          Z.of_nat (fnCalls w) = n ∧ ∀ j, (Z.of_nat j < n)%Z → query j = None
      end.
Proof.
  intros Hn Hcap Hfuel. unfold waitForWithTries, waitForFunctionWithTries, asyncScope_exec.
  destruct (poll_ends (λ _ : ElementHandle, true) (λ k, Returned (query k))
              n fuel Hcap 0%Z start)
    as (out & w & k & l & Hrun & Hcalls & _ & Hbound & Hout);
    [by rewrite Z.sub_0_r|].
  simpl in Hcalls, Hbound, Hout. rewrite Z.sub_0_r in Hbound, Hout.
  rewrite Z.max_r in Hbound, Hout by done. subst k.
  assert (∀ m, all_falsy (λ _ : ElementHandle, true) (λ k, Returned (query k)) 0 m →
               ∀ j, (j < m)%nat → query j = None) as Hfalsy.
  { intros m Hall j Hj. specialize (Hall j Hj). simpl in Hall.
    by destruct (query j). }
  destruct out as [[element|]|reason].
  - destruct Hout as (_ & m & Hm & Hq & Hall & _). injection Hq as Hq.
    exists (Some element), w. split; [exact Hrun|]. split; [exact Hbound|].
    exists m. split_and!; [done..|]. by apply Hfalsy.
  - destruct Hout as (Hcount & Hall & _).
    exists None, w. split; [exact Hrun|]. split; [exact Hbound|]. split; [exact Hcount|].
    intros j Hj. apply (Hfalsy _ Hall). lia.
  - destruct Hout as (m & _ & Hq & _). discriminate Hq.
Qed.

Lemma waitForWithTries_capped_witness :
  (0 ≤ 2)%Z
  ∧ (2 ≤ two_to_53)%Z
  ∧ (Z.to_nat 2 < 3)%nat
  ∧ ∃ w, waitForWithTries (λ _ : nat, @None nat) 3 (Some {| tries := integer 2 |}) start
         = Some (Returned None, w)
         ∧ fnCalls w = 2%nat.
Proof.
  assert (0 ≤ 2)%Z as Hn by lia.
  assert (2 ≤ two_to_53)%Z as Hcap by (unfold two_to_53; lia).
  assert (Z.to_nat 2 < 3)%nat as Hfuel by (simpl; lia).
  split; [exact Hn|]. split; [exact Hcap|]. split; [exact Hfuel|].
  destruct (waitForWithTries_capped (λ _ : nat, @None nat) 2 3 Hn Hcap Hfuel)
    as (found & w & Hrun & _ & _).
  exists w. vm_compute in Hrun. injection Hrun as <- <-. split; reflexivity.
Defined.
End DevToolsPage_element_facts.

(** ** Events recorded for a test *)

Section PendingEvents_facts.
Import PendingEvents.
Context {Event : Type}.
Implicit Types (w : Window Event) (m : gmap string (list Event)).

Lemma bind_replicate_one {A : Type} (l : list A) : l ≫= replicate 1 = l.
Proof.
  induction l as [|x l IH]; [done|].
  change (x :: (l ≫= replicate 1) = x :: l). by rewrite IH.
Qed.

(** What the listeners in a list do with one event. *)
Lemma listeners_record eventType (e : Event) (listeners : list string) w m :
  pendingEvents w = Some m →
  let w' := foldl (λ w listener,
                     if decide (listener = eventType)
                     then record_event eventType e w else w) w listeners in
  let k := length (List.filter (λ listener, bool_decide (listener = eventType)) listeners) in
  recording w' = recording w
  ∧ ∃ m', pendingEvents w' = Some m'
          ∧ (∀ t, t ≠ eventType → m' !! t = m !! t)
          ∧ m' !! eventType
            = if decide (k = 0%nat) then m !! eventType
              else Some (default [] (m !! eventType) ++ replicate k e).
Proof.
  revert w m. induction listeners as [|l ls IH]; intros w m Hm; cbn zeta.
  - simpl. split; [done|]. exists m. by split.
  - cbn [foldl List.filter]. destruct (decide (l = eventType)) as [->|Hne].
    + rewrite bool_decide_eq_true_2 by done. cbn [length].
      set (events := default [] (m !! eventType)).
      assert (record_event eventType e w
              = {| pendingEvents := Some (<[eventType := events ++ [e]]> m);
                   recording := recording w |}) as Hrec.
      { unfold record_event, events. rewrite Hm. by destruct (m !! eventType). }
      rewrite Hrec.
      destruct (IH {| pendingEvents := Some (<[eventType := events ++ [e]]> m);
                      recording := recording w |}
                   (<[eventType := events ++ [e]]> m) eq_refl)
        as (Hr & m' & Hm' & Hother & Hthis).
      cbn zeta in Hr, Hm', Hother, Hthis.
      split; [exact Hr|]. exists m'. split; [exact Hm'|]. split.
      * intros t Ht. rewrite Hother by done. by rewrite lookup_insert_ne.
      * rewrite Hthis, lookup_insert_eq. simpl.
        destruct (decide (length _ = 0%nat)) as [->|_]; simpl.
        -- done.
        -- by rewrite <- app_assoc.
    + rewrite bool_decide_eq_false_2 by done. by apply IH.
Qed.

Lemma dispatchEvent_records eventType (e : Event) w m :
  pendingEvents w = Some m →
  recording (dispatchEvent eventType e w) = recording w
  ∧ ∃ m', pendingEvents (dispatchEvent eventType e w) = Some m'
          ∧ (∀ t, t ≠ eventType → m' !! t = m !! t)
          ∧ m' !! eventType
            = if decide (listeners_for eventType w = 0%nat) then m !! eventType
              else Some (default [] (m !! eventType)
                         ++ replicate (listeners_for eventType w) e).
Proof. intros Hm. apply (listeners_record eventType e (recording w) w m Hm). Qed.

Lemma listeners_for_recording eventType w w' :
  recording w' = recording w → listeners_for eventType w' = listeners_for eventType w.
Proof. unfold listeners_for. by intros ->. Qed.

(** What is pending for one type after a run of events, when a list was
    already stored for the type. *)
Lemma dispatchEvents_pending eventType (events : list (string * Event)) w m old :
  pendingEvents w = Some m →
  m !! eventType = Some old →
  recording (dispatchEvents events w) = recording w
  ∧ ∃ m', pendingEvents (dispatchEvents events w) = Some m'
          ∧ m' !! eventType
            = Some (old ++ (of_type eventType events
                            ≫= replicate (listeners_for eventType w))).
Proof.
  revert w m old. induction events as [|[t e] events IH]; intros w m old Hm Hold.
  - simpl. split; [done|]. exists m. split; [done|]. by rewrite app_nil_r.
  - unfold dispatchEvents. cbn [foldl fst snd]. fold (dispatchEvents events (dispatchEvent t e w)).
    destruct (dispatchEvent_records t e w m Hm) as (Hr & m1 & Hm1 & Hother & Hthis).
    pose proof (listeners_for_recording eventType _ _ Hr) as Hk.
    unfold of_type. cbn [List.filter fst].
    destruct (decide (t = eventType)) as [->|Hne].
    + rewrite bool_decide_eq_true_2 by done. rewrite Hold in Hthis. simpl in Hthis.
      destruct (IH (dispatchEvent eventType e w) m1
                   (old ++ replicate (listeners_for eventType w) e) Hm1)
        as (Hr' & m' & Hm' & Hres).
      { rewrite Hthis. destruct (decide _) as [->|_]; [by rewrite app_nil_r | done]. }
      split; [by rewrite Hr'|]. exists m'. split; [exact Hm'|].
      rewrite Hres, Hk. rewrite fmap_cons. cbn [mbind list_bind snd].
      fold (of_type eventType events). by rewrite <- app_assoc.
    + rewrite bool_decide_eq_false_2 by done.
      destruct (IH (dispatchEvent t e w) m1 old Hm1) as (Hr' & m' & Hm' & Hres).
      { rewrite Hother by done. exact Hold. }
      split; [by rewrite Hr'|]. exists m'. split; [exact Hm'|].
      by rewrite Hres, Hk.
Qed.

(** X14: events are handed over once.  Between one call of
    getPendingEvents for a type and the next, the second call returns the
    events of that type that reached the window in between, in order, each
    as many times as installEventListener was called for the type; a third
    call right after returns the empty list. *)
Theorem pending_events_handed_over_once eventType (events : list (string * Event)) w :
  is_Some (pendingEvents w) →
  fst (getPendingEvents eventType
         (dispatchEvents events (snd (getPendingEvents eventType w))))
  = Some (of_type eventType events ≫= replicate (listeners_for eventType w))
  ∧ fst (getPendingEvents eventType
           (snd (getPendingEvents eventType
                   (dispatchEvents events (snd (getPendingEvents eventType w))))))
    = Some [].
Proof.
  intros [m Hm].
  set (w1 := {| pendingEvents := Some (<[eventType := []]> m); recording := recording w |}).
  assert (snd (getPendingEvents eventType w) = w1) as ->
    by (unfold getPendingEvents; by rewrite Hm).
  destruct (dispatchEvents_pending eventType events w1 (<[eventType := []]> m) [] eq_refl)
    as (Hr & m' & Hm' & Hres); [apply lookup_insert_eq|].
  assert (getPendingEvents eventType (dispatchEvents events w1)
          = (m' !! eventType,
             {| pendingEvents := Some (<[eventType := []]> m');
                recording := recording (dispatchEvents events w1) |})) as ->
    by (unfold getPendingEvents; by rewrite Hm').
  cbn [fst snd]. split.
  - rewrite Hres. f_equal.
  - unfold getPendingEvents. cbn [pendingEvents fst]. apply lookup_insert_eq.
Qed.

(** X15: nothing recorded yet reads as [undefined], not as an empty list.
    Before installEventListener was ever called getPendingEvents returns
    [undefined] and leaves the window as it is; after it was called for a
    type, the first getPendingEvents for that type returns [undefined] when
    no event of the type has arrived, and the events that arrived
    otherwise. *)
Theorem first_pending_events eventType (events : list (string * Event)) :
  getPendingEvents eventType (dispatchEvents events fresh_window) = (None, fresh_window)
  ∧ fst (getPendingEvents eventType
           (dispatchEvents events (installEventListener eventType fresh_window)))
    = match of_type eventType events with
      | [] => None
      | arrived => Some arrived
      end.
Proof.
  split.
  - assert (dispatchEvents events (fresh_window (Event := Event)) = fresh_window) as ->; [|done].
    induction events as [|[t e] events IH]; [done|].
    unfold dispatchEvents in *. by cbn [foldl].
  - set (w := installEventListener eventType fresh_window).
    assert (∀ (w : Window Event) m,
              pendingEvents w = Some m → m !! eventType = None →
              listeners_for eventType w = 1%nat →
              fst (getPendingEvents eventType (dispatchEvents events w))
              = match of_type eventType events with
                | [] => None
                | arrived => Some arrived
                end) as Hgen.
    { clear w. induction events as [|[t e] events IH]; intros w m Hm Hnone Hone.
      - unfold getPendingEvents. simpl. by rewrite Hm.
      - unfold dispatchEvents. cbn [foldl fst snd].
        fold (dispatchEvents events (dispatchEvent t e w)).
        destruct (dispatchEvent_records t e w m Hm) as (Hr & m1 & Hm1 & Hother & Hthis).
        pose proof (listeners_for_recording eventType _ _ Hr) as Hk.
        unfold of_type. cbn [List.filter fst].
        destruct (decide (t = eventType)) as [->|Hne].
        + rewrite bool_decide_eq_true_2 by done.
          rewrite Hone, Hnone in Hthis. simpl in Hthis.
          destruct (dispatchEvents_pending eventType events (dispatchEvent eventType e w)
                      m1 [e] Hm1 Hthis) as (_ & m' & Hm' & Hres).
          unfold getPendingEvents. rewrite Hm'. cbn [fst]. rewrite Hres, Hk, Hone.
          rewrite fmap_cons. cbn [snd]. fold (of_type eventType events).
          by rewrite bind_replicate_one.
        + rewrite bool_decide_eq_false_2 by done. fold (of_type eventType events).
          apply (IH _ m1 Hm1); [by rewrite Hother | by rewrite Hk]. }
    apply (Hgen w ∅ eq_refl); [apply lookup_empty|].
    unfold listeners_for, w. simpl. by rewrite bool_decide_eq_true_2 by done.
Qed.
End PendingEvents_facts.

Lemma pending_events_handed_over_once_witness :
  is_Some (PendingEvents.pendingEvents (PendingEvents.installEventListener "click" (PendingEvents.fresh_window (Event := nat))))
  ∧ fst (PendingEvents.getPendingEvents "click"
           (PendingEvents.dispatchEvents [("click", 1%nat); ("keydown", 2%nat); ("click", 3%nat)]
              (snd (PendingEvents.getPendingEvents "click"
                      (PendingEvents.installEventListener "click" PendingEvents.fresh_window)))))
    = Some [1%nat; 3%nat].
Proof.
  assert (is_Some (PendingEvents.pendingEvents (PendingEvents.installEventListener "click" (PendingEvents.fresh_window (Event := nat)))))
    as Hinstalled by (by eexists).
  split; [exact Hinstalled|].
  exact (proj1 (pending_events_handed_over_once "click"
                  [("click", 1%nat); ("keydown", 2%nat); ("click", 3%nat)]
                  (PendingEvents.installEventListener "click" PendingEvents.fresh_window) Hinstalled)).
Defined.


(** ** ScreenshotError *)

Section ScreenshotError_facts.
Import ScreenshotError.

Lemma length_append_string (a b : string) :
  String.length (a ++ b)%string = (String.length a + String.length b)%nat.
Proof.
  induction a as [|c a IH]; [done|].
  change (S (String.length (a ++ b)%string) = S (String.length a + String.length b)).
  by rewrite IH.
Qed.

Lemma length_slice_to (n : nat) (s : JSString) : (length (slice_to n s) ≤ n)%nat.
Proof. unfold slice_to. rewrite length_take. lia. Qed.

(** X16: the summary respects the limit the cut-off is there for: whatever
    the message, the stack and the screenshots of a ScreenshotError,
    toMiloSummary is at most 4000 UTF-16 code units long, the unit in which
    [length] and [slice] count. *)
Theorem summary_fits_the_limit (e : t) :
  (length (toMiloSummary e) ≤ 4000)%nat.
Proof.
  assert (length (literal "<pre>") = 5%nat) as Hpre by reflexivity.
  assert (length (literal "</pre><p>Screenshot generated (see below)</p>") = 45%nat)
    as Hgenerated by reflexivity.
  assert (length (literal "</pre><p>Unexpected error. See inspected and DevTools pages screenshots below.</p>")
          = 82%nat) as Hunexpected by reflexivity.
  unfold toMiloSummary.
  destruct (has_key "expected_image" (screenshots e)); [simpl; lia|].
  destruct (has_key "generated" (screenshots e)); cbv zeta;
    rewrite !length_app, Hpre, ?Hgenerated, ?Hunexpected;
    match goal with
    | |- context [length (slice_to SUMMARY_LENGTH_CUTOFF ?s)] =>
        pose proof (length_slice_to SUMMARY_LENGTH_CUTOFF s) as Hcut
    end;
    unfold SUMMARY_LENGTH_CUTOFF in *; lia.
Qed.

Lemma has_key_insert key (value : string) (m : gmap string string) :
  has_key key (<[key := value]> m) = true.
Proof. unfold has_key. apply bool_decide_eq_true. rewrite lookup_insert_eq. by eexists. Qed.

Section WithPlatform.
Variable tmpdir : string.
Variable basename : string → string.
Variable path_join : string → string → string.
Variable path_relative : string → string → string.
Variable sha256_hex : string → string.
Variable GEN_DIR SOURCE_ROOT : string.

(** X17: each factory makes an error with the summary meant for it.  An
    error from fromScreenshotAssertionError has the empty summary; one from
    fromGeneratedScreenshot has the "Screenshot generated" summary of its
    message; one from fromBase64Images (given both screenshots) has the
    "Unexpected error" summary of its message and stack. *)
Theorem summary_of_each_factory (error : Error) (message : JSString)
    (golden generated diff : string)
    (inspected devTools : string) (fs : gmap string string) :
  (∀ e fs', fromScreenshotAssertionError tmpdir basename path_join path_relative SOURCE_ROOT
              error golden generated diff fs = Some (e, fs') →
            toMiloSummary e = [])
  ∧ (∀ e fs', fromGeneratedScreenshot tmpdir basename path_join path_relative GEN_DIR
                message generated fs = Some (e, fs') →
              toMiloSummary e
              = literal "<pre>" ++ slice_to SUMMARY_LENGTH_CUTOFF message
                ++ literal "</pre><p>Screenshot generated (see below)</p>")
  ∧ (inspected ≠ EmptyString → devTools ≠ EmptyString →
     ∃ e, fst (fromBase64Images tmpdir path_join sha256_hex error
                 (Some inspected) (Some devTools) fs) = inr e
          ∧ toMiloSummary e
            = literal "<pre>"
              ++ slice_to SUMMARY_LENGTH_CUTOFF
                   (ScreenshotError.message e ++ blank_line ++ stack e)
              ++ literal "</pre><p>Unexpected error. See inspected and DevTools pages screenshots below.</p>").
Proof.
  split_and!.
  - intros e fs'. unfold fromScreenshotAssertionError, stashArtifact.
    destruct (fs !! golden) as [g|]; [|done]. cbn [mbind option_bind].
    destruct (_ !! generated) as [n|]; [|done]. cbn [mbind option_bind].
    destruct (_ !! diff) as [d|]; [|done]. cbn [mbind option_bind].
    intros [= <- _]. unfold toMiloSummary; cbn [screenshots new].
    by rewrite has_key_insert.
  - intros e fs'. unfold fromGeneratedScreenshot, stashArtifact.
    destruct (fs !! generated) as [n|]; [|done]. cbn [mbind option_bind].
    intros [= <- _]. unfold toMiloSummary; cbn [screenshots new ScreenshotError.message].
    assert (has_key "expected_image"
              ({["generated" := path_join tmpdir ("generated" ++ "-" ++ basename generated)%string]}
               : gmap string string) = false) as ->.
    { apply bool_decide_eq_false. rewrite lookup_singleton_ne by done. by intros [? ?]. }
    assert (has_key "generated"
              ({["generated" := path_join tmpdir ("generated" ++ "-" ++ basename generated)%string]}
               : gmap string string) = true) as ->.
    { apply bool_decide_eq_true. rewrite lookup_singleton_eq. by eexists. }
    by destruct message.
  - intros Hi Hd. unfold fromBase64Images.
    apply truthy_string_true in Hi as ->. apply truthy_string_true in Hd as ->.
    cbn [andb]. unfold saveArtifact. cbn [fst]. eexists. split; [reflexivity|].
    unfold toMiloSummary; cbn [screenshots new ScreenshotError.message stack].
    set (shots := <["inspectedPage" := _]> _).
    assert (has_key "expected_image" shots = false) as ->.
    { apply bool_decide_eq_false. unfold shots.
      rewrite lookup_insert_ne, lookup_singleton_ne by done. by intros [? ?]. }
    assert (has_key "generated" shots = false) as ->.
    { apply bool_decide_eq_false. unfold shots.
      rewrite lookup_insert_ne, lookup_singleton_ne by done. by intros [? ?]. }
    reflexivity.
Qed.

(** X18: fromBase64Images without both screenshots.  When a screenshot is
    missing or empty the error is handed back as it came and no file is
    written. *)
Theorem no_screenshots_no_artifacts (error : Error)
    (inspected devTools : option string) (fs : gmap string string) :
  inspected = None ∨ inspected = Some EmptyString
  ∨ devTools = None ∨ devTools = Some EmptyString →
  fromBase64Images tmpdir path_join sha256_hex error inspected devTools fs
  = (inl error, fs).
Proof.
  unfold fromBase64Images.
  intros [-> | [-> | [-> | ->]]]; try done.
  - by destruct devTools.
  - by destruct inspected.
  - destruct inspected as [i|]; [|done]. by rewrite andb_false_r.
Qed.

Lemma substring_after_prefix (p s : string) :
  String.substring (String.length p) (String.length (p ++ s)%string - String.length p)
    (p ++ s)%string = s.
Proof.
  rewrite length_append_string.
  replace (String.length p + String.length s - String.length p)%nat
    with (String.length s) by lia.
  induction p as [|c p IH]; [|exact IH].
  change (String.substring 0 (String.length s) s = s).
  induction s as [|d s IHs]; [done|]. simpl. by rewrite IHs.
Qed.

(** X19: the data-URL prefix makes no difference to what is saved.  An
    image given with the prefix "data:image/png;base64," is saved under the
    same path and with the same content as the image given without it. *)
Theorem saveArtifact_ignores_data_url_prefix (image : string) (fs : gmap string string) :
  String.prefix data_url_prefix image = false →
  saveArtifact tmpdir path_join sha256_hex (data_url_prefix ++ image)%string fs
  = saveArtifact tmpdir path_join sha256_hex image fs.
Proof.
  intros Hplain. unfold saveArtifact.
  assert (strip_data_url (data_url_prefix ++ image)%string = image) as ->.
  { unfold strip_data_url. rewrite prefix_append. apply substring_after_prefix. }
  assert (strip_data_url image = image) as -> by (unfold strip_data_url; by rewrite Hplain).
  done.
Qed.
End WithPlatform.
End ScreenshotError_facts.

Lemma summary_of_each_factory_witness :
  ∃ e fs',
    ScreenshotError.fromScreenshotAssertionError "/tmp" ScreenshotError_examples.whole_path
      ScreenshotError_examples.simple_join ScreenshotError_examples.relative_to "/src"
      ScreenshotError_examples.assertion_failed "golden.png" "generated.png" "diff.png"
      ScreenshotError_examples.files = Some (e, fs')
    ∧ ScreenshotError.toMiloSummary e = [].
Proof.
  destruct (ScreenshotError.fromScreenshotAssertionError "/tmp"
              ScreenshotError_examples.whole_path ScreenshotError_examples.simple_join
              ScreenshotError_examples.relative_to "/src"
              ScreenshotError_examples.assertion_failed "golden.png" "generated.png"
              "diff.png" ScreenshotError_examples.files) as [[e fs']|] eqn:Hrun;
    [|vm_compute in Hrun; discriminate Hrun].
  exists e, fs'. split; [reflexivity|].
  exact (proj1 (summary_of_each_factory "/tmp" ScreenshotError_examples.whole_path
                  ScreenshotError_examples.simple_join ScreenshotError_examples.relative_to
                  ScreenshotError_examples.digest "/gen" "/src"
                  ScreenshotError_examples.assertion_failed [] "golden.png" "generated.png"
                  "diff.png" "" "" ScreenshotError_examples.files) e fs' Hrun).
Defined.

Lemma no_screenshots_no_artifacts_witness :
  (Some "iVBOR" = None ∨ Some "iVBOR" = Some EmptyString
   ∨ @None string = None ∨ @None string = Some EmptyString)
  ∧ ScreenshotError.fromBase64Images "/tmp" ScreenshotError_examples.simple_join
      ScreenshotError_examples.digest ScreenshotError_examples.assertion_failed
      (Some "iVBOR") None ScreenshotError_examples.files
    = (inl ScreenshotError_examples.assertion_failed, ScreenshotError_examples.files).
Proof.
  assert (Some "iVBOR" = None ∨ Some "iVBOR" = Some EmptyString
          ∨ @None string = None ∨ @None string = Some EmptyString) as Hmissing
    by (right; right; left; reflexivity).
  split; [exact Hmissing|].
  exact (no_screenshots_no_artifacts "/tmp" ScreenshotError_examples.simple_join
           ScreenshotError_examples.digest ScreenshotError_examples.assertion_failed
           (Some "iVBOR") None ScreenshotError_examples.files Hmissing).
Defined.

Lemma saveArtifact_ignores_data_url_prefix_witness :
  String.prefix ScreenshotError.data_url_prefix "iVBOR" = false
  ∧ ScreenshotError.saveArtifact "/tmp" ScreenshotError_examples.simple_join
      ScreenshotError_examples.digest "data:image/png;base64,iVBOR" ∅
    = ScreenshotError.saveArtifact "/tmp" ScreenshotError_examples.simple_join
        ScreenshotError_examples.digest "iVBOR" ∅.
Proof.
  split; [reflexivity|].
  exact (saveArtifact_ignores_data_url_prefix "/tmp" ScreenshotError_examples.simple_join
           ScreenshotError_examples.digest "iVBOR" ∅ eq_refl).
Defined.
